(** * GeminiLiveService: the audio/session bridge of the voice console

    A shallow embedding of [src/services/geminiService.ts].  The service
    object is a record of its private fields; the browser objects it owns
    (audio contexts, source nodes, animation frames) are identified by
    numbers handed out by a counter, and everything the service does to
    the outside (callbacks, session sends, node starts and stops) is
    appended to a trace.  One handler invocation is one turn of the event
    loop and runs to its end before the next one starts.  The callbacks of
    the caller are recorded in the trace, not run: those of the console
    put off whatever they do to the service with timers.  Times are exact
    rationals: the scheduler only compares and adds them. *)

From Stdlib Require Import QArith Qminmax Qabs Lqa.
From stdpp Require Import gmap strings list.

Open Scope string_scope.
Open Scope list_scope.

(** ** JavaScript values reaching the tool-call bridge *)

(** The payload of a function call is a [Record<string, unknown>]; these
    are the JSON scalars a field of it may hold ([JsUndefined] is what
    reading an absent field gives). *)
Inductive JsValue : Type :=
  | JsUndefined
  | JsNull
  | JsBool (b : bool)
  | JsNum (n : Z)
  | JsStr (s : string).

#[global] Instance JsValue_eq_dec : EqDecision JsValue.
Proof. solve_decision. Defined.

(** [SystemCommand] of [src/types.ts]: the three literals. *)
Definition isSystemCommand (v : JsValue) : bool :=
  match v with
  | JsStr s => bool_decide (s = "shutdown") || bool_decide (s = "restart")
               || bool_decide (s = "status_check")
  | _ => false
  end.

(** ** Inbound messages ([LiveServerMessage]) *)

(** One entry of [message.toolCall.functionCalls].  The handler reads
    [fc.args.command] without a guard, so [args] is an object here, as
    the declared tool schema ([required: ['command']]) has it. *)
Record FunctionCall : Type := {
  fc_id : option string;
  fc_name : option string;
  fc_args : gmap string JsValue;
}.

Record Blob : Type := { data : option string }.
Record Part : Type := { inlineData : option Blob }.
Record Content : Type := { parts : option (list Part) }.
Record ServerContent : Type := {
  interrupted : option bool;
  modelTurn : option Content;
}.
Record LiveServerToolCall : Type := { functionCalls : list FunctionCall }.
Record LiveServerMessage : Type := {
  toolCall : option LiveServerToolCall;
  serverContent : option ServerContent;
}.

(** [message.serverContent?.interrupted], with JavaScript truthiness. *)
Definition isInterrupted (message : LiveServerMessage) : bool :=
  match serverContent message ≫= interrupted with
  | Some true => true
  | _ => false
  end.

(** [message.serverContent?.modelTurn?.parts?.[0]?.inlineData?.data] *)
Definition base64Audio (message : LiveServerMessage) : option string :=
  sc ← serverContent message;
  mt ← modelTurn sc;
  ps ← parts mt;
  p ← head ps;
  b ← inlineData p;
  data b.

(** [if (base64Audio)]: undefined and the empty string are falsy. *)
Definition truthyString (o : option string) : option string :=
  match o with
  | Some "" => None
  | other => other
  end.

(** ** Outbound effects *)

Record FunctionResponse : Type := {
  fr_id : option string;
  fr_name : option string;
  fr_result : string;
}.

Inductive Event : Type :=
  | OnOpen
  | OnClose
  | OnError
  | OnAudioData (amplitude : Q)
  | OnCommand (command : JsValue)
  | SendToolResponse (functionResponses : list FunctionResponse)
  | SourceStart (node : nat) (when : Q) (duration : Q)
  | SourceStop (node : nat)
  | ProcessorDisconnect (node : nat)
  | TrackStop (stream : nat)
  | ContextClose (ctx : nat)
  | CancelAnimationFrame (handle : nat).

(** ** The service instance and the browser state it depends on *)

Record Service : Type := {
  inputAudioContext : option nat;
  outputAudioContext : option nat;
  nextStartTime : Q;
  sources : gset nat;
  activeStream : option nat;
  processor : option nat;
  sessionPromise : option nat;
  outputNode : option nat;
  analyser : option nat;
  animationFrameId : option nat;
}.

Record World : Type := {
  svc : Service;
  closed : gset nat;        (* audio contexts already closed *)
  frames : gset nat;        (* animation frames requested and pending *)
  nextId : nat;              (* next unused object identifier *)
  trace : list Event;
}.

(** Field initialisers of the class (lines 35-44). *)
Definition newService : Service := {|
  inputAudioContext := None;
  outputAudioContext := None;
  nextStartTime := 0;
  sources := ∅;
  activeStream := None;
  processor := None;
  sessionPromise := None;
  outputNode := None;
  analyser := None;
  animationFrameId := None;
|}.

Definition initWorld : World :=
  {| svc := newService; closed := ∅; frames := ∅; nextId := 1; trace := [] |}.

Definition emit (es : list Event) (w : World) : World :=
  {| svc := svc w; closed := closed w; frames := frames w;
     nextId := nextId w; trace := trace w ++ es |}.

Definition withSvc (s : Service) (w : World) : World :=
  {| svc := s; closed := closed w; frames := frames w;
     nextId := nextId w; trace := trace w |}.

(** Assignments to the fields the handlers write. *)
Definition setContexts (i o : option nat) (s : Service) : Service :=
  {| inputAudioContext := i; outputAudioContext := o;
     nextStartTime := nextStartTime s; sources := sources s;
     activeStream := activeStream s; processor := processor s;
     sessionPromise := sessionPromise s; outputNode := outputNode s;
     analyser := analyser s; animationFrameId := animationFrameId s |}.

Definition setGraph (g a : option nat) (s : Service) : Service :=
  {| inputAudioContext := inputAudioContext s;
     outputAudioContext := outputAudioContext s;
     nextStartTime := nextStartTime s; sources := sources s;
     activeStream := activeStream s; processor := processor s;
     sessionPromise := sessionPromise s; outputNode := g;
     analyser := a; animationFrameId := animationFrameId s |}.

Definition setPlayback (t : Q) (u : gset nat) (s : Service) : Service :=
  {| inputAudioContext := inputAudioContext s;
     outputAudioContext := outputAudioContext s;
     nextStartTime := t; sources := u;
     activeStream := activeStream s; processor := processor s;
     sessionPromise := sessionPromise s; outputNode := outputNode s;
     analyser := analyser s; animationFrameId := animationFrameId s |}.

Definition setSession (m p : option nat) (s : Service) : Service :=
  {| inputAudioContext := inputAudioContext s;
     outputAudioContext := outputAudioContext s;
     nextStartTime := nextStartTime s; sources := sources s;
     activeStream := m; processor := processor s;
     sessionPromise := p; outputNode := outputNode s;
     analyser := analyser s; animationFrameId := animationFrameId s |}.

Definition setProcessor (p : option nat) (s : Service) : Service :=
  {| inputAudioContext := inputAudioContext s;
     outputAudioContext := outputAudioContext s;
     nextStartTime := nextStartTime s; sources := sources s;
     activeStream := activeStream s; processor := p;
     sessionPromise := sessionPromise s; outputNode := outputNode s;
     analyser := analyser s; animationFrameId := animationFrameId s |}.

Definition setAnimationFrameId (h : option nat) (s : Service) : Service :=
  {| inputAudioContext := inputAudioContext s;
     outputAudioContext := outputAudioContext s;
     nextStartTime := nextStartTime s; sources := sources s;
     activeStream := activeStream s; processor := processor s;
     sessionPromise := sessionPromise s; outputNode := outputNode s;
     analyser := analyser s; animationFrameId := h |}.

(** Hands out [n] new object identifiers. *)
Definition allocate (n : nat) (w : World) : World :=
  {| svc := svc w; closed := closed w; frames := frames w;
     nextId := nextId w + n; trace := trace w |}.

Definition setFrames (f : gset nat) (w : World) : World :=
  {| svc := svc w; closed := closed w; frames := f;
     nextId := nextId w; trace := trace w |}.

Definition setClosed (c : gset nat) (w : World) : World :=
  {| svc := svc w; closed := c; frames := frames w;
     nextId := nextId w; trace := trace w |}.

(** ** Amplitude monitor ([updateVisualizer], lines 71-83) *)

(** [analyser.fftSize = 256], hence [frequencyBinCount = 128]. *)
Definition fftSize : nat := 256.
Definition frequencyBinCount : nat := fftSize / 2.

(** [getByteFrequencyData(array)]: the analyser's byte spectrum overwrites
    the array from the front; surplus spectrum values are dropped and
    surplus array entries keep their content. *)
Definition getByteFrequencyData (spectrum array : list Byte.byte)
  : list Byte.byte :=
  take (length array) spectrum ++ drop (length spectrum) array.

(** The [for] loop: [sum += dataArray[i]]. *)
Definition sumBins (dataArray : list Byte.byte) : Z :=
  foldl (fun sum b => (sum + Z.of_N (Byte.to_N b))%Z) 0%Z dataArray.

(** [sum / dataArray.length]; the division is by the power of two 128
    and so exact in double precision. *)
Definition averageVolume (spectrum : list Byte.byte) : Q :=
  let dataArray :=
    getByteFrequencyData spectrum (replicate frequencyBinCount Byte.x00) in
  inject_Z (sumBins dataArray) / inject_Z (Z.of_nat (length dataArray)).

(** One tick: report the average, then [requestAnimationFrame]. *)
Definition updateVisualizer (spectrum : list Byte.byte) (w : World) : World :=
  match analyser (svc w) with
  | None => w
  | Some _ =>
      let w1 := emit [OnAudioData (averageVolume spectrum)] w in
      let handle := nextId w1 in
      allocate 1
        (setFrames ({[handle]} ∪ frames w1)
           (withSvc (setAnimationFrameId (Some handle) (svc w1)) w1))
  end.

(** ** Session bridge *)

Section Bridge.

(** [audioUtils] is imported but not part of the sources at hand; of the
    buffer that [createAudioBuffer (decodePCM payload)] returns, the
    scheduler uses the [duration] alone, taken here as a parameter. *)
Variable audioDuration : string -> Q.

(** *** [connect] (lines 50-123)

    The body up to [await getUserMedia].  The two flags say whether the
    respective [new AudioContext] succeeds; a failing constructor rejects
    [connect] on the spot. *)
Definition connectStart (inputOk outputOk : bool) (spectrum : list Byte.byte)
    (w : World) : World :=
  if negb inputOk then w else
  let cin := nextId w in
  let w1 := allocate 1
    (withSvc (setContexts (Some cin) (outputAudioContext (svc w)) (svc w)) w) in
  if negb outputOk then w1 else
  let cout := nextId w1 in
  let w2 := allocate 3
    (withSvc (setGraph (Some (cout + 1)) (Some (cout + 2))
                (setContexts (Some cin) (Some cout) (svc w1))) w1) in
  updateVisualizer spectrum w2.

(** The continuation once the microphone stream is there: store it and
    open the remote session. *)
Definition connectResume (w : World) : World :=
  let stream := nextId w in
  allocate 2
    (withSvc (setSession (Some stream) (Some (stream + 1)) (svc w)) w).

(** [startInputStreaming] (lines 125-143). *)
Definition startInputStreaming (w : World) : World :=
  match inputAudioContext (svc w), activeStream (svc w),
        sessionPromise (svc w) with
  | Some _, Some _, Some _ =>
      allocate 2 (withSvc (setProcessor (Some (nextId w + 1)) (svc w)) w)
  | _, _, _ => w
  end.

(** The session's [onopen] callback. *)
Definition onopen (w : World) : World :=
  emit [OnOpen] (startInputStreaming w).

(** *** [handleServerMessage] (lines 145-202) *)

Definition toolName : string := "executeSystemCommand".

(** [(fc.args as any).command] *)
Definition commandOf (fc : FunctionCall) : JsValue :=
  default JsUndefined (fc_args fc !! "command").

(** The acknowledgment object pushed on [responses]. *)
Definition acknowledge (fc : FunctionCall) : FunctionResponse :=
  {| fr_id := fc_id fc; fr_name := fc_name fc;
     fr_result := "Command executed successfully" |}.

(** Body of the loop over [functionCalls] (lines 150-159): the callbacks
    invoked and the acknowledgments pushed for one request. *)
Definition toolCallStep (fc : FunctionCall)
  : list Event * list FunctionResponse :=
  if bool_decide (fc_name fc = Some toolName)
  then ([OnCommand (commandOf fc)], [acknowledge fc])
  else ([], []).

(** The whole loop: callbacks in request order, [responses] at its end. *)
Fixpoint toolCallLoop (fcs : list FunctionCall)
  : list Event * list FunctionResponse :=
  match fcs with
  | [] => ([], [])
  | fc :: rest =>
      let '(es, rs) := toolCallStep fc in
      let '(es', rs') := toolCallLoop rest in
      (es ++ es', rs ++ rs')
  end.

(** [this.sessionPromise?.then(session => session.sendToolResponse(..))]:
    the send is a promise reaction, so it runs once the synchronous part
    of the handler is over. *)
Definition toolResponseSend (w : World) (responses : list FunctionResponse)
  : list Event :=
  match responses, sessionPromise (svc w) with
  | _ :: _, Some _ => [SendToolResponse responses]
  | _, _ => []
  end.

(** Lines 173-179, the interruption branch. [try { source.stop() } catch]
    swallows whatever a stop raises, so every member is visited; the order
    of the visits plays no part in what follows. *)
Definition interrupt (w : World) : World :=
  let stops := SourceStop <$> elements (sources (svc w)) in
  withSvc (setPlayback 0 ∅ (svc w)) (emit stops w).

(** Line 185, before the [await]. *)
Definition alignCursor (clock : Q) (w : World) : World :=
  withSvc (setPlayback (Qmax (nextStartTime (svc w)) clock)
             (sources (svc w)) (svc w)) w.

(** Lines 190-200, after the [await]. *)
Definition startSource (duration : Q) (w : World) : World :=
  let source := nextId w in
  let startTime := nextStartTime (svc w) in
  allocate 1
    (withSvc (setPlayback (startTime + duration)
                ({[source]} ∪ sources (svc w)) (svc w))
       (emit [SourceStart source startTime duration] w)).

Definition handleServerMessage (message : LiveServerMessage) (clock : Q)
    (w : World) : World :=
  let '(w1, deferred) :=
    match toolCall message with
    | Some tc =>
        let '(calls, responses) := toolCallLoop (functionCalls tc) in
        (emit calls w, toolResponseSend w responses)
    | None => (w, [])
    end in
  match outputAudioContext (svc w1), outputNode (svc w1) with
  | Some _, Some _ =>
      if isInterrupted message then emit deferred (interrupt w1)
      else
        match truthyString (base64Audio message) with
        | Some payload =>
            startSource (audioDuration payload)
              (emit deferred (alignCursor clock w1))
        | None => emit deferred w1
        end
  | _, _ => emit deferred w1
  end.

(** The ['ended'] listener of a source (lines 194-196). *)
Definition onended (source : nat) (w : World) : World :=
  withSvc (setPlayback (nextStartTime (svc w))
             (sources (svc w) ∖ {[source]}) (svc w)) w.

(** The browser runs a requested animation frame unless it was cancelled. *)
Definition animationFrame (handle : nat) (spectrum : list Byte.byte)
    (w : World) : World :=
  if decide (handle ∈ frames w)
  then updateVisualizer spectrum (setFrames (frames w ∖ {[handle]}) w)
  else w.

(** *** [disconnect] (lines 204-239) *)

Inductive Outcome : Type :=
  | Returned
  | Rejected (reason : string).

(** [AudioContext.close()] rejects on a context that is already closed. *)
Definition closeContext (ctx : nat) (w : World) : option World :=
  if decide (ctx ∈ closed w) then None
  else Some (emit [ContextClose ctx] (setClosed ({[ctx]} ∪ closed w) w)).

Definition closeIfPresent (field : option nat) (w : World) : option World :=
  match field with
  | Some ctx => closeContext ctx w
  | None => Some w
  end.

(** [if (this.animationFrameId)]: [null] and the handle 0 are falsy. *)
Definition cancelIfPresent (field : option nat) (w : World) : World :=
  match field with
  | Some (S h) =>
      emit [CancelAnimationFrame (S h)] (setFrames (frames w ∖ {[S h]}) w)
  | _ => w
  end.

(** Lines 215-222: the capture side ([onaudioprocess = null] has no
    part in what follows). *)
Definition releaseCapture (w : World) : World :=
  let w1 :=
    match processor (svc w) with
    | Some p => emit [ProcessorDisconnect p] w
    | None => w
    end in
  match activeStream (svc w1) with
  | Some s => emit [TrackStop s] w1
  | None => w1
  end.

Definition disconnect (w : World) : World * Outcome :=
  let w2 := releaseCapture w in
  match closeIfPresent (inputAudioContext (svc w2)) w2 with
  | None => (w2, Rejected "InvalidStateError")
  | Some w3 =>
      match closeIfPresent (outputAudioContext (svc w3)) w3 with
      | None => (w3, Rejected "InvalidStateError")
      | Some w4 =>
          let w5 := cancelIfPresent (animationFrameId (svc w4)) w4 in
          let s := svc w5 in
          (withSvc
             (setContexts None None
                (setSession None (sessionPromise s)
                   (setPlayback (nextStartTime s) ∅ s))) w5,
           Returned)
      end
  end.

(** *** Everything that can happen to a service instance

    The stages of [connect], the events of the session, of the sources and
    of the display, and [disconnect], in any order.  The capture callback
    ([onaudioprocess]) only sends frames and writes no field; it is left
    out. *)

Inductive Action : Type :=
  | ConnectStart (inputOk outputOk : bool) (spectrum : list Byte.byte)
  | MicrophoneGranted
  | SessionOpen
  | SessionClose
  | SessionError
  | ServerMessage (message : LiveServerMessage) (clock : Q)
  | SourceEnded (source : nat)
  | AnimationFrame (handle : nat) (spectrum : list Byte.byte)
  | Disconnect.

Definition perform (a : Action) (w : World) : World :=
  match a with
  | ConnectStart i o spectrum => connectStart i o spectrum w
  | MicrophoneGranted => connectResume w
  | SessionOpen => onopen w
  | SessionClose => emit [OnClose] w
  | SessionError => emit [OnError] w
  | ServerMessage message clock => handleServerMessage message clock w
  | SourceEnded source => onended source w
  | AnimationFrame handle spectrum => animationFrame handle spectrum w
  | Disconnect => fst (disconnect w)
  end.

Definition run (acts : list Action) (w : World) : World :=
  foldl (fun w a => perform a w) w acts.

Definition reachable (w : World) : Prop :=
  exists acts, w = run acts initWorld.

End Bridge.

(** ** PCM codec *)

Module PCM.

(** Modelled from the spec: the module [./audioUtils] ([createBlob],
    [decodePCM], [createAudioBuffer]) is imported by the service but is not
    among the sources.  The definitions below follow section 4.1 of the
    specification: samples are exact rationals, a byte is an integer in
    [0, 256), the base64 envelope is left out.  The conversion to an
    integer truncates, as a store into an [Int16Array] does, and the decoder
    divides by the scale the encoder multiplies with. *)
Definition scale : Z := 32767.

(** Modelled from the spec: "clamping to [-1,1]". *)
Definition clamp (s : Q) : Q := Qmax (-1) (Qmin 1 s).

(** Modelled from the spec: the integer part of a rational, towards zero. *)
Definition truncate (x : Q) : Z := Z.quot (Qnum x) (Zpos (Qden x)).

(** Modelled from the spec: a value as a 16-bit signed integer. *)
Definition toInt16 (n : Z) : Z := ((n + 32768) mod 65536 - 32768)%Z.

(** Modelled from the spec: "converts each sample to a 16-bit signed
    integer by clamping to [-1,1] and scaling by 32767". *)
Definition floatToInt16 (s : Q) : Z :=
  toInt16 (truncate (clamp s * inject_Z scale)).

(** Modelled from the spec: the two bytes of a 16-bit integer, low first. *)
Definition int16Bytes (n : Z) : list Z :=
  let u := (n mod 65536)%Z in [(u mod 256)%Z; (u / 256)%Z].

(** Modelled from the spec: [encode], up to the envelope: "concatenates
    the bytes". *)
Definition encode (samples : list Q) : list Z :=
  flat_map (fun s => int16Bytes (floatToInt16 s)) samples.

(** Modelled from the spec: two bytes read as a little-endian signed
    integer. *)
Definition int16OfBytes (lo hi : Z) : Z :=
  let u := (lo + 256 * hi)%Z in
  if (u <? 32768)%Z then u else (u - 65536)%Z.

(** Modelled from the spec: "reinterprets raw bytes as 16-bit little-endian
    signed integers", "truncating the final incomplete sample silently". *)
Fixpoint int16sOfBytes (bytes : list Z) : list Z :=
  match bytes with
  | lo :: hi :: rest => int16OfBytes lo hi :: int16sOfBytes rest
  | _ => []
  end.

(** Modelled from the spec: "rescales to [-1,1] floats", for a given
    divisor. *)
Definition rescale (divisor : Z) (n : Z) : Q := inject_Z n / inject_Z divisor.

Record AudioBuffer : Type := { sampleRate : Z; channelData : list Q }.

(** Modelled from the spec: [bytesToAudioBuffer (raw bytes, sampleRate)]. *)
Definition bytesToAudioBuffer (bytes : list Z) (rate : Z) : AudioBuffer :=
  {| sampleRate := rate; channelData := rescale scale <$> int16sOfBytes bytes |}.

End PCM.

(** ** Observations on worlds and traces *)

(** The output graph exists: the guard of line 170 lets the handler on. *)
Definition live (w : World) : Prop :=
  is_Some (outputAudioContext (svc w)) ∧ is_Some (outputNode (svc w)).

(** What one more action appends to the trace. *)
Definition turnTrace (audioDuration : string -> Q) (a : Action) (w : World)
  : list Event :=
  drop (length (trace w)) (trace (perform audioDuration a w)).

(** Start times handed to [source.start], in trace order. *)
Definition startTimes (tr : list Event) : list Q :=
  omap (fun e => match e with SourceStart _ t _ => Some t | _ => None end) tr.

(** Arguments of the [onCommand] invocations, in trace order. *)
Definition commandsInvoked (tr : list Event) : list JsValue :=
  omap (fun e => match e with OnCommand c => Some c | _ => None end) tr.

(** Batches passed to [sendToolResponse], in trace order. *)
Definition batchesSent (tr : list Event) : list (list FunctionResponse) :=
  omap (fun e => match e with SendToolResponse b => Some b | _ => None end) tr.

(** Values passed to [onAudioData], in trace order. *)
Definition amplitudes (tr : list Event) : list Q :=
  omap (fun e => match e with OnAudioData a => Some a | _ => None end) tr.

(** Requests naming the system-command tool. *)
Definition recognised (fcs : list FunctionCall) : list FunctionCall :=
  filter (fun fc => fc_name fc = Some toolName) fcs.

(** The message carries an inlined audio payload the handler acts on. *)
Definition audioPayload (message : LiveServerMessage) : option string :=
  truthyString (base64Audio message).

(** A [functionCall] request as the remote sends it. *)
Definition request (id name : string) (command : JsValue) : FunctionCall :=
  {| fc_id := Some id; fc_name := Some name;
     fc_args := {[ "command" := command ]} |}.

(** Start times of the sources started between two worlds of one run. *)
Definition startsSince (w w' : World) : list Q :=
  startTimes (drop (length (trace w)) (trace w')).

(** The first phase of the handler (lines 147-168) as the events it
    causes: the callbacks, and the send left for after the turn. *)
Definition toolPhase (message : LiveServerMessage) (w : World)
  : list Event * list Event :=
  match toolCall message with
  | Some tc =>
      let '(calls, responses) := toolCallLoop (functionCalls tc) in
      (calls, toolResponseSend w responses)
  | None => ([], [])
  end.


(** The contexts the service still refers to are open and distinct, and
    every identifier in use is below the counter. *)
Record contextsOpen (w : World) : Prop := {
  input_open : ∀ c, inputAudioContext (svc w) = Some c →
               (c ∉ closed w) ∧ (c < nextId w);
  output_open : ∀ c, outputAudioContext (svc w) = Some c →
                (c ∉ closed w) ∧ (c < nextId w);
  closed_known : ∀ c, c ∈ closed w → c < nextId w;
  contexts_distinct : ∀ a b, inputAudioContext (svc w) = Some a →
                      outputAudioContext (svc w) = Some b → a ≠ b;
}.

(** The byte range of the analyser's magnitudes. *)
Definition amplitudeInRange (a : Q) : Prop := (0 <= a)%Q ∧ (a <= 255)%Q.

(** Actions that may enqueue audio. *)
Definition enqueuesAudio (a : Action) : Prop :=
  match a with
  | ServerMessage message _ => is_Some (audioPayload message)
  | _ => False
  end.

(** Events of the playback scheduler. *)
Definition playbackEvent (e : Event) : Prop :=
  match e with
  | SourceStart _ _ _ | SourceStop _ => True
  | _ => False
  end.

(** The requests of a message ([[]] when it has no [toolCall]). *)
Definition callsOf (message : LiveServerMessage) : list FunctionCall :=
  match toolCall message with
  | Some tc => functionCalls tc
  | None => []
  end.

(** The batches one message gives rise to: none when nothing was
    queued, else the single list of all its acknowledgments. *)
Definition batchOf (fcs : list FunctionCall) : list (list FunctionResponse) :=
  match acknowledge <$> recognised fcs with
  | [] => []
  | responses => [responses]
  end.

(** A message whose only content is one inlined audio payload. *)
Definition audioMessage (payload : string) : LiveServerMessage :=
  {| toolCall := None;
     serverContent := Some {|
       interrupted := None;
       modelTurn := Some {| parts := Some [
         {| inlineData := Some {| data := Some payload |} |} ] |} |} |}.

(** A message with the interruption flag and an audio payload. *)
Definition interruptingAudioMessage (payload : string) : LiveServerMessage :=
  {| toolCall := None;
     serverContent := Some {|
       interrupted := Some true;
       modelTurn := Some {| parts := Some [
         {| inlineData := Some {| data := Some payload |} |} ] |} |} |}.

(** A message with tool-call requests only. *)
Definition toolCallMessage (fcs : list FunctionCall) : LiveServerMessage :=
  {| toolCall := Some {| functionCalls := fcs |}; serverContent := None |}.

(** A complete [connect]: contexts, microphone, session open. *)
Definition connectActions : list Action :=
  [ConnectStart true true []; MicrophoneGranted; SessionOpen].

(** The actions of handling a list of messages, each at its clock time. *)
Definition messageActions (msgs : list (LiveServerMessage * Q)) : list Action :=
  (fun mc => ServerMessage mc.1 mc.2) <$> msgs.

(** An event is fine for the visualizer when it reports no amplitude or
    one in the byte range. *)
Definition amplitudeOk (e : Event) : Prop :=
  match e with
  | OnAudioData a => amplitudeInRange a
  | _ => True
  end.

(** ** Sample runs *)

(** A decoder stand-in for the sample runs: a quarter of a second per
    payload character. *)
Definition sampleDuration (payload : string) : Q :=
  inject_Z (Z.of_nat (String.length payload)) / 4.

(** A connected instance. *)
Definition connectedWorld : World :=
  run sampleDuration connectActions initWorld.

(** A connected instance with two sources scheduled. *)
Definition playingWorld : World :=
  run sampleDuration
    [ServerMessage (audioMessage "AAAAAAAA") 1;
     ServerMessage (audioMessage "AAAA") 2]
    connectedWorld.


Definition sampleAudio : list (LiveServerMessage * Q) :=
  [(audioMessage "AAAAAAAA", 1%Q); (audioMessage "AAAA", 2%Q);
   (audioMessage "AAAAAAAAAAAA", 5%Q)].

(** ** Further observations *)

(** Nodes handed to [source.start], [source.stop] and contexts handed to
    [close], in trace order. *)
Definition startedIds (tr : list Event) : list nat :=
  omap (fun e => match e with SourceStart s _ _ => Some s | _ => None end) tr.

Definition stoppedIds (tr : list Event) : list nat :=
  omap (fun e => match e with SourceStop s => Some s | _ => None end) tr.

Definition closedIds (tr : list Event) : list nat :=
  omap (fun e => match e with ContextClose c => Some c | _ => None end) tr.

(** [message.serverContent?.modelTurn?.parts?.[0]] *)
Definition firstPart (message : LiveServerMessage) : option Part :=
  sc ← serverContent message;
  mt ← modelTurn sc;
  ps ← parts mt;
  head ps.

(** [...parts?.[0]?.inlineData?.data], from the first part on. *)
Definition firstPartData (message : LiveServerMessage) : option string :=
  p ← firstPart message;
  b ← inlineData p;
  data b.

Definition isServerMessage (a : Action) : bool :=
  match a with ServerMessage _ _ => true | _ => false end.

Definition isConnectStart (a : Action) : bool :=
  match a with ConnectStart _ _ _ => true | _ => false end.

(** The members of [sources] were started and not stopped; no node is
    started or stopped twice. *)
Record sourcesTracked (w : World) : Prop := {
  st_started : ∀ s, s ∈ sources (svc w) → s ∈ startedIds (trace w);
  st_unstopped : ∀ s, s ∈ sources (svc w) → s ∉ stoppedIds (trace w);
  st_known : ∀ s, s ∈ startedIds (trace w) → (s < nextId w)%nat;
  st_stopped : ∀ s, s ∈ stoppedIds (trace w) → s ∈ startedIds (trace w);
  st_start_once : NoDup (startedIds (trace w));
  st_stop_once : NoDup (stoppedIds (trace w));
}.

(** The playback windows of the members of [sources] end by the cursor
    and do not overlap. *)
Record windowsOrdered (w : World) : Prop := {
  wo_end : ∀ s t d, s ∈ sources (svc w) → SourceStart s t d ∈ trace w →
           (t + d <= nextStartTime (svc w))%Q;
  wo_apart : ∀ s1 t1 d1 s2 t2 d2,
             s1 ∈ sources (svc w) → s2 ∈ sources (svc w) → s1 ≠ s2 →
             SourceStart s1 t1 d1 ∈ trace w → SourceStart s2 t2 d2 ∈ trace w →
             (t1 + d1 <= t2)%Q ∨ (t2 + d2 <= t1)%Q;
  wo_cursor : (0 <= nextStartTime (svc w))%Q;
}.


(** Every pending animation frame is the one [animationFrameId] names. *)
Definition oneLoop (w : World) : Prop :=
  ∀ f, f ∈ frames w → animationFrameId (svc w) = Some f ∧ f ≠ 0%nat.

(** Pending frames and contexts carry identifiers already handed out, and
    the counter never hands out 0. *)
Definition idsKnown (w : World) : Prop :=
  (0 < nextId w)%nat ∧ ∀ f, f ∈ frames w → (f < nextId w)%nat.

(** What one action adds to the values passed to [onAudioData]. *)
Definition reportedBy (a : Action) (w : World) : list Q :=
  match a with
  | ConnectStart true true spectrum => [averageVolume spectrum]
  | AnimationFrame handle spectrum =>
      if decide (handle ∈ frames w) then
        match analyser (svc w) with
        | Some _ => [averageVolume spectrum]
        | None => []
        end
      else []
  | _ => []
  end.

(** A session with one audio chunk and one tick, and what may still
    arrive after its end. *)
Definition sampleSession : list Action :=
  connectActions ++
  [ServerMessage (audioMessage "AAAAAAAA") 1; AnimationFrame 5 []].

Definition sampleAftermath : list Action :=
  [MicrophoneGranted; SessionOpen; ServerMessage (audioMessage "AAAA") 3;
   AnimationFrame 5 []; AnimationFrame 10 []; SourceEnded 10; Disconnect].

(** ** The arc reactor ([src/components/ArcReactor.tsx])

    What the component computes from its props (lines 10-12, 26 and 33);
    the decimal constants are exact rationals here. *)

Module ArcReactor.

Definition scale (active : bool) (volume : Q) : Q :=
  if active then 1 + (volume / 255) * (2 # 10) else 1.

Definition glow (active : bool) (volume : Q) : Q :=
  if active then volume / 255 else 2 # 10.

(** The alpha channel of [color]. *)
Definition colorAlpha (active : bool) (volume : Q) : Q :=
  if active then (4 # 10) + glow active volume else 2 # 10.

(** The [opacity] of the core glow. *)
Definition coreOpacity (active : bool) (volume : Q) : Q :=
  if active then (3 # 10) + volume / 400 else 1 # 10.

(** The blur radius of the ring's [boxShadow], in pixels. *)
Definition shadowBlur (active : bool) (volume : Q) : Q :=
  20 * glow active volume.

(** The numbers a render of an active reactor uses keep to their ranges. *)
Definition withinRanges (volume : Q) : Prop :=
  (1 <= scale true volume)%Q ∧ (scale true volume <= 12 # 10)%Q
  ∧ (0 <= glow true volume)%Q ∧ (glow true volume <= 1)%Q
  ∧ (3 # 10 <= coreOpacity true volume)%Q
  ∧ (coreOpacity true volume <= 15 # 16)%Q
  ∧ (0 <= shadowBlur true volume)%Q ∧ (shadowBlur true volume <= 20)%Q
  ∧ (4 # 10 <= colorAlpha true volume)%Q
  ∧ (colorAlpha true volume <= 14 # 10)%Q.

End ArcReactor.

(** ** The console ([App], the caller of the service)

    The component's state, its handlers and the callbacks it hands to
    [connect].  A handler's state updates are applied in the order it
    queues them.  Of a log entry the [id] and the [timestamp] come from
    [Math.random] and [Date]; they are left out.  Every service instance
    the component has made is kept, newest first: [serviceRef.current] is
    the head, and the callbacks of the older ones still write the same
    state. *)

Module Console.

Inductive ConnectionState : Type :=
  | DISCONNECTED | CONNECTING | CONNECTED | ERROR.

Inductive LogType : Type := system | user | ai.

Record LogEntry : Type := { message : string; type : LogType }.

Inductive VoiceName : Type := Puck | Charon | Kore | Fenrir | Zephyr.

(** [selectedVoice.toUpperCase()] *)
Definition toUpperCase (v : VoiceName) : string :=
  match v with
  | Puck => "PUCK" | Charon => "CHARON" | Kore => "KORE"
  | Fenrir => "FENRIR" | Zephyr => "ZEPHYR"
  end.

(** The callbacks handed to [setTimeout]. *)
Inductive TimerCallback : Type :=
  | LogLater (message : string) (type : LogType)
  | Rebooted
  | DisconnectLater.

Record App : Type := {
  connectionState : ConnectionState;
  volume : Q;
  logs : list LogEntry;
  selectedVoice : VoiceName;
  instances : list World;
  timers : list (nat * TimerCallback);
}.

(** The [useState] and [useRef] initial values. *)
Definition initial : App :=
  {| connectionState := DISCONNECTED; volume := 0; logs := [];
     selectedVoice := Fenrir; instances := []; timers := [] |}.

Definition setConnectionState (c : ConnectionState) (st : App) : App :=
  {| connectionState := c; volume := volume st; logs := logs st;
     selectedVoice := selectedVoice st; instances := instances st;
     timers := timers st |}.

Definition setVolume (v : Q) (st : App) : App :=
  {| connectionState := connectionState st; volume := v; logs := logs st;
     selectedVoice := selectedVoice st; instances := instances st;
     timers := timers st |}.

Definition setLogs (l : list LogEntry) (st : App) : App :=
  {| connectionState := connectionState st; volume := volume st; logs := l;
     selectedVoice := selectedVoice st; instances := instances st;
     timers := timers st |}.

Definition setSelectedVoice (v : VoiceName) (st : App) : App :=
  {| connectionState := connectionState st; volume := volume st;
     logs := logs st; selectedVoice := v; instances := instances st;
     timers := timers st |}.

Definition setInstances (l : list World) (st : App) : App :=
  {| connectionState := connectionState st; volume := volume st;
     logs := logs st; selectedVoice := selectedVoice st; instances := l;
     timers := timers st |}.

Definition setTimers (l : list (nat * TimerCallback)) (st : App) : App :=
  {| connectionState := connectionState st; volume := volume st;
     logs := logs st; selectedVoice := selectedVoice st;
     instances := instances st; timers := l |}.

(** [addLog] (lines 14-24). *)
Definition addLog (message : string) (type : LogType) (st : App) : App :=
  setLogs (logs st ++ [{| message := message; type := type |}]) st.

(** [setTimeout (callback, delay)] *)
Definition setTimeout (callback : TimerCallback) (delay : nat) (st : App) : App :=
  setTimers (timers st ++ [(delay, callback)]) st.

(** The mount effect (lines 26-31). *)
Definition mount (st : App) : App :=
  addLog "Waiting for neural handshake..." system
    (addLog "Language Module: URDU [Active]" system
       (addLog "System initialized." system st)).

(** [handleDisconnect] (lines 41-48); a rejected [disconnect] leaves the
    lines after the [await] undone. *)
Definition handleDisconnect (st : App) : App :=
  match instances st with
  | [] => st
  | w :: older =>
      let st1 := setInstances ((disconnect w).1 :: older) st in
      match (disconnect w).2 with
      | Returned =>
          addLog "Disengaging protocols. Goodbye, Sir." system
            (setVolume 0 (setConnectionState DISCONNECTED st1))
      | Rejected _ => st1
      end
  end.

(** [handleSystemCommand] (lines 50-75): a [switch] with three cases and
    no default. *)
Definition handleSystemCommand (command : JsValue) (st : App) : App :=
  if decide (command = JsStr "status_check") then
    setTimeout (LogLater "ALL SYSTEMS NOMINAL" ai) 800
      (setTimeout (LogLater "NETWORK LATENCY: 12ms" system) 600
         (setTimeout (LogLater "SHIELD PROTOCOLS: ACTIVE" system) 400
            (setTimeout (LogLater "CORE INTEGRITY: 100%" system) 200
               (addLog "RUNNING DIAGNOSTICS..." system st))))
  else if decide (command = JsStr "restart") then
    setTimeout Rebooted 1500
      (setLogs []
         (setConnectionState CONNECTING
            (addLog "INITIATING REBOOT SEQUENCE..." system st)))
  else if decide (command = JsStr "shutdown") then
    setTimeout DisconnectLater 2000
      (addLog "POWER DOWN SEQUENCE INITIATED..." system st)
  else st.

(** What a timer does when it fires. *)
Definition timerCallback (callback : TimerCallback) (st : App) : App :=
  match callback with
  | LogLater message type => addLog message type st
  | Rebooted => setConnectionState CONNECTED (addLog "SYSTEM REBOOTED" system st)
  | DisconnectLater => handleDisconnect st
  end.

(** The [i]-th pending timer fires and is gone.  The delays are kept as
    the code gives them, but any pending timer may be the next to fire:
    this admits every order the browser's clock can produce, and more. *)
Definition fireTimer (i : nat) (st : App) : App :=
  match timers st !! i with
  | Some (_, callback) => timerCallback callback (setTimers (delete i (timers st)) st)
  | None => st
  end.

Definition greeting : string :=
  "اسلام علیکم سر، میں آپ کی کیا مدد کر سکتا ہوں؟".

(** [error.message || 'Unknown Protocol Failure'] *)
Definition errorText (detail : option string) : string :=
  match truthyString detail with
  | Some text => text
  | None => "Unknown Protocol Failure"
  end.

(** The callbacks of lines 85-105, by the event that the service records
    when it invokes them; [detail] is the [message] of an error event. *)
Definition callback (detail : option string) (e : Event) (st : App) : App :=
  match e with
  | OnOpen =>
      addLog greeting ai
        (addLog "Connection established. Audio channels open." system
           (setConnectionState CONNECTED st))
  | OnClose =>
      addLog "Connection terminated." system
        (setConnectionState DISCONNECTED st)
  | OnError =>
      addLog ("Error detected: " +:+ errorText detail) system
        (setConnectionState ERROR st)
  | OnAudioData vol => setVolume vol st
  | OnCommand command => handleSystemCommand command st
  | _ => st
  end.

(** The events that are invocations of one of the five callbacks. *)
Definition isCallback (e : Event) : bool :=
  match e with
  | OnOpen | OnClose | OnError | OnAudioData _ | OnCommand _ => true
  | _ => false
  end.

(** [handleSystemCommand] on each of a list of commands, in order. *)
Definition runCommands (commands : list JsValue) (st : App) : App :=
  foldl (fun st command => handleSystemCommand command st) st commands.

(** The callbacks of one turn of a service instance, in order. *)
Definition callbacks (detail : option string) (turn : list Event) (st : App) : App :=
  foldl (fun st e => callback detail e st) st turn.

(** The [catch] of [handleConnect] (lines 109-112). *)
Definition connectFailed (reason : string) (st : App) : App :=
  addLog ("Initialization failed: " +:+ reason) system
    (setConnectionState ERROR st).

(** No log entry, written or still waiting in a timer, is of type
    [user]. *)
Record logsTyped (st : App) : Prop := {
  logs_typed : Forall (fun l => type l ≠ user) (logs st);
  timers_typed :
    Forall (fun t => ∀ text ty, t.2 = LogLater text ty → ty ≠ user) (timers st);
}.

Section WithDecoder.

Variable audioDuration : string -> Q.

(** [handleConnect] up to the [await] inside [connect] (lines 77-107): a
    new service instance, the synchronous part of its [connect] with its
    first visualizer tick, and the [catch] when a context cannot be made. *)
Definition handleConnect (inputOk outputOk : bool) (spectrum : list Byte.byte)
    (reason : string) (st : App) : App :=
  let st1 :=
    addLog ("Initiating secure connection to JARVIS core [VOICE: "
            +:+ toUpperCase (selectedVoice st) +:+ "]...") system
      (setConnectionState CONNECTING st) in
  let w := connectStart inputOk outputOk spectrum initWorld in
  let st2 := callbacks None (trace w) (setInstances (w :: instances st1) st1) in
  if inputOk && outputOk then st2 else connectFailed reason st2.

(** What reaches an instance from outside the component: the microphone
    grant, session events, messages, ended sources and animation frames.
    [connect] and [disconnect] are called by the component only. *)
Definition external (a : Action) : bool :=
  match a with
  | ConnectStart _ _ _ | Disconnect => false
  | _ => true
  end.

(** Something happens to the [k]-th instance, and the callbacks it invokes
    run. *)
Definition instanceEvent (k : nat) (a : Action) (detail : option string)
    (st : App) : App :=
  match instances st !! k with
  | Some w =>
      if external a then
        callbacks detail (turnTrace audioDuration a w)
          (setInstances (<[k := perform audioDuration a w]> (instances st)) st)
      else st
  | None => st
  end.

(** The connect button is rendered while disconnected or in error, the
    terminate button otherwise; the voice buttons are enabled with the
    former. *)
Definition canConnect (st : App) : bool :=
  match connectionState st with
  | DISCONNECTED | ERROR => true
  | _ => false
  end.

(** What can happen to the console.  [MicrophoneDenied] is the rejection
    of [getUserMedia], which rejects [connect] and runs the [catch] of
    [handleConnect]; like the events of an instance it is not tied to a
    moment, so the runs below include all the browser can produce. *)
Inductive Input : Type :=
  | ClickConnect (inputOk outputOk : bool) (spectrum : list Byte.byte)
      (reason : string)
  | MicrophoneDenied (reason : string)
  | ClickTerminate
  | ClickVoice (v : VoiceName)
  | TimerFires (i : nat)
  | InstanceEvent (k : nat) (a : Action) (detail : option string).

Definition step (i : Input) (st : App) : App :=
  match i with
  | ClickConnect inputOk outputOk spectrum reason =>
      if canConnect st then handleConnect inputOk outputOk spectrum reason st
      else st
  | MicrophoneDenied reason => connectFailed reason st
  | ClickTerminate => if canConnect st then st else handleDisconnect st
  | ClickVoice v => if canConnect st then setSelectedVoice v st else st
  | TimerFires i => fireTimer i st
  | InstanceEvent k a detail => instanceEvent k a detail st
  end.

Definition runApp (inputs : list Input) (st : App) : App :=
  foldl (fun st i => step i st) st inputs.

(** The states the console can be in, from the first render on. *)
Definition reachableApp (st : App) : Prop :=
  ∃ inputs, st = runApp inputs (mount initial).

(** An instance came from a fresh service by one [connect] at most. *)
Definition connectedOnce (w : World) : Prop :=
  ∃ acts, w = run audioDuration acts initWorld
          ∧ (length (List.filter isConnectStart acts) ≤ 1)%nat.

(** The volume is a byte mean, and every instance was connected once at
    most. *)
Record wellFormed (st : App) : Prop := {
  volume_in_range : amplitudeInRange (volume st);
  instances_connected_once : Forall connectedOnce (instances st);
}.

(** The volume is 0 and the current instance has no animation frame
    pending. *)
Definition quiescent (st : App) : Prop :=
  volume st = 0%Q
  ∧ ∃ w older, instances st = w :: older
               ∧ reachable audioDuration w ∧ frames w = ∅.

(** Inputs other than a click on the connect button and events of
    instances older than the current one. *)
Definition onCurrent (i : Input) : bool :=
  match i with
  | ClickConnect _ _ _ _ => false
  | InstanceEvent k _ _ => bool_decide (k = 0%nat)
  | _ => true
  end.

End WithDecoder.

End Console.

(** A console session: connect, a [restart] request from the remote, one
    tick of the visualizer. *)
Definition sampleInputs : list Console.Input :=
  [Console.ClickConnect true true [Byte.xff] "NotAllowedError";
   Console.InstanceEvent 0 MicrophoneGranted None;
   Console.InstanceEvent 0 SessionOpen None;
   Console.InstanceEvent 0
     (ServerMessage
        (toolCallMessage [request "call-1" toolName (JsStr "restart")]) 1) None;
   Console.InstanceEvent 0 (AnimationFrame 5 [Byte.xff; Byte.xff]) None].

Definition sampleConsole : Console.App :=
  Console.runApp sampleDuration sampleInputs (Console.mount Console.initial).

(** What may still arrive once the console has terminated that session. *)
Definition sampleLateInputs : list Console.Input :=
  [Console.InstanceEvent 0 (AnimationFrame 6 [Byte.xff]) None;
   Console.InstanceEvent 0 (ServerMessage (audioMessage "AAAA") 2) None;
   Console.TimerFires 0;
   Console.ClickTerminate;
   Console.InstanceEvent 0 SessionClose None].

(** The console once the session is open. *)
Definition sampleGreeted : Console.App :=
  Console.runApp sampleDuration (take 3 sampleInputs)
    (Console.mount Console.initial).

(** The instance the sample console holds. *)
Definition sampleInstance : World :=
  default initWorld (head (Console.instances sampleConsole)).

(** A [restart] request, and an audio message with a second part. *)
Definition restartMessage : LiveServerMessage :=
  toolCallMessage [request "call-9" toolName (JsStr "restart")].

Definition twoPartMessage (first second : string) : LiveServerMessage :=
  {| toolCall := None;
     serverContent := Some {|
       interrupted := None;
       modelTurn := Some {| parts := Some [
         {| inlineData := Some {| data := Some first |} |};
         {| inlineData := Some {| data := Some second |} |} ] |} |} |}.

(** ** Tool-call routing *)

Lemma commandOf_request id name c : commandOf (request id name c) = c.
Proof. unfold commandOf, request; simpl. by rewrite lookup_singleton_eq. Qed.



(** [restart] is routed, an unknown tool is not. *)
Example route_restart :
  toolCallStep (request "call-2" "executeSystemCommand" (JsStr "restart"))
  = ([OnCommand (JsStr "restart")],
     [acknowledge (request "call-2" "executeSystemCommand" (JsStr "restart"))]).
Proof. by vm_compute. Qed.

Example route_unknownTool :
  toolCallStep (request "call-3" "unknownTool" (JsStr "restart")) = ([], []).
Proof. by vm_compute. Qed.

Lemma toolCallLoop_spec (fcs : list FunctionCall) :
  toolCallLoop fcs
  = ((fun fc => OnCommand (commandOf fc)) <$> recognised fcs,
     acknowledge <$> recognised fcs).
Proof.
  induction fcs as [|fc fcs IH]; [done|].
  cbn [toolCallLoop]. rewrite IH. unfold recognised, toolCallStep.
  rewrite filter_cons. case_bool_decide; case_decide; done.
Qed.

(** ** The handler, case by case *)

Lemma emit_nil (w : World) : emit [] w = w.
Proof. destruct w; unfold emit; simpl. by rewrite app_nil_r. Qed.

Lemma emit_emit (es es' : list Event) (w : World) :
  emit es' (emit es w) = emit (es ++ es') w.
Proof. unfold emit; simpl. by rewrite app_assoc. Qed.

Section Handler.

Variable audioDuration : string -> Q.
Local Abbreviation handle := (handleServerMessage audioDuration).

Lemma handle_unfold (m : LiveServerMessage) (clock : Q) (w : World) :
  handle m clock w =
  let w1 := emit (toolPhase m w).1 w in
  let deferred := (toolPhase m w).2 in
  match outputAudioContext (svc w), outputNode (svc w) with
  | Some _, Some _ =>
      if isInterrupted m then emit deferred (interrupt w1)
      else match audioPayload m with
           | Some payload =>
               startSource (audioDuration payload)
                 (emit deferred (alignCursor clock w1))
           | None => emit deferred w1
           end
  | _, _ => emit deferred w1
  end.
Proof.
  unfold handleServerMessage, toolPhase, audioPayload.
  destruct (toolCall m) as [tc|].
  - destruct (toolCallLoop (functionCalls tc)); reflexivity.
  - cbn [fst snd]. rewrite !emit_nil. reflexivity.
Qed.

(** Without the output graph only the tool phase happens. *)
Lemma handle_detached (m : LiveServerMessage) (clock : Q) (w : World) :
  ¬ live w →
  handle m clock w = emit ((toolPhase m w).1 ++ (toolPhase m w).2) w.
Proof.
  intros Hdead. rewrite handle_unfold; cbn zeta.
  destruct (outputAudioContext (svc w)) eqn:Ho;
    [destruct (outputNode (svc w)) eqn:Hn|]; try by rewrite emit_emit.
  exfalso. apply Hdead. split; [rewrite Ho | rewrite Hn]; eauto.
Qed.

Lemma handle_interrupted (m : LiveServerMessage) (clock : Q) (w : World) :
  live w → isInterrupted m = true →
  handle m clock w =
  withSvc (setPlayback 0 ∅ (svc w))
    (emit ((toolPhase m w).1
           ++ (SourceStop <$> elements (sources (svc w)))
           ++ (toolPhase m w).2) w).
Proof.
  intros [[o Ho] [n Hn]] Hi. rewrite handle_unfold; cbn zeta.
  rewrite Ho, Hn, Hi. unfold interrupt, emit, withSvc; simpl.
  by rewrite <- !app_assoc.
Qed.

Lemma handle_audio (m : LiveServerMessage) (clock : Q) (w : World) (p : string) :
  live w → isInterrupted m = false → audioPayload m = Some p →
  handle m clock w =
  allocate 1
    (withSvc
       (setPlayback (Qmax (nextStartTime (svc w)) clock + audioDuration p)
          ({[nextId w]} ∪ sources (svc w)) (svc w))
       (emit ((toolPhase m w).1 ++ (toolPhase m w).2
              ++ [SourceStart (nextId w) (Qmax (nextStartTime (svc w)) clock)
                    (audioDuration p)]) w)).
Proof.
  intros [[o Ho] [n Hn]] Hi Hp. rewrite handle_unfold; cbn zeta.
  rewrite Ho, Hn, Hi, Hp.
  unfold startSource, alignCursor, allocate, emit, withSvc, setPlayback; simpl.
  by rewrite <- !app_assoc.
Qed.

Lemma handle_quiet (m : LiveServerMessage) (clock : Q) (w : World) :
  isInterrupted m = false → audioPayload m = None →
  handle m clock w = emit ((toolPhase m w).1 ++ (toolPhase m w).2) w.
Proof.
  intros Hi Hp. rewrite handle_unfold; cbn zeta. rewrite Hi, Hp.
  destruct (outputAudioContext (svc w)); [destruct (outputNode (svc w))|];
    by rewrite emit_emit.
Qed.

End Handler.

(** ** What the tool phase is seen to do *)



Lemma startTimes_app (l k : list Event) :
  startTimes (l ++ k) = startTimes l ++ startTimes k.
Proof. apply omap_app. Qed.


Lemma toolPhase_calls (m : LiveServerMessage) (w : World) :
  (toolPhase m w).1 = (fun fc => OnCommand (commandOf fc)) <$> recognised (callsOf m).
Proof.
  unfold toolPhase, callsOf. destruct (toolCall m) as [tc|]; [|done].
  by rewrite toolCallLoop_spec.
Qed.

Lemma toolPhase_calls_obs (m : LiveServerMessage) (w : World) :
  commandsInvoked (toolPhase m w).1 = commandOf <$> recognised (callsOf m)
  ∧ batchesSent (toolPhase m w).1 = []
  ∧ startTimes (toolPhase m w).1 = [].
Proof.
  rewrite toolPhase_calls.
  induction (recognised (callsOf m)) as [|fc l (IHc & IHb & IHs)]; [done|].
  split_and!; [change (commandOf fc :: commandsInvoked
                 ((fun fc => OnCommand (commandOf fc)) <$> l)
               = commandOf fc :: (commandOf <$> l)); by f_equal | done | done].
Qed.

Lemma toolPhase_send_obs (m : LiveServerMessage) (w : World) :
  commandsInvoked (toolPhase m w).2 = []
  ∧ startTimes (toolPhase m w).2 = []
  ∧ batchesSent (toolPhase m w).2 =
    match sessionPromise (svc w) with
    | Some _ => batchOf (callsOf m)
    | None => []
    end.
Proof.
  unfold toolPhase, callsOf, batchOf.
  destruct (toolCall m) as [tc|]; [|by destruct (sessionPromise (svc w))].
  rewrite toolCallLoop_spec. cbn [snd]. unfold toolResponseSend.
  destruct (acknowledge <$> recognised (functionCalls tc));
    by destruct (sessionPromise (svc w)).
Qed.

Section ToolCalls.

Variable audioDuration : string -> Q.
Local Abbreviation handle := (handleServerMessage audioDuration).

(** The trace of one handler turn: callbacks, then possibly the stops of
    an interruption, then the send, then possibly one start. *)
Lemma handle_trace (m : LiveServerMessage) (clock : Q) (w : World) :
  ∃ mid post,
    trace (handle m clock w)
    = trace w ++ (toolPhase m w).1 ++ mid ++ (toolPhase m w).2 ++ post
    ∧ Forall playbackEvent mid ∧ Forall playbackEvent post.
Proof.
  rewrite handle_unfold; cbn zeta.
  destruct (outputAudioContext (svc w)); [destruct (outputNode (svc w))|].
  2,3: exists [], []; simpl; by rewrite app_nil_r, app_assoc.
  destruct (isInterrupted m).
  - exists (SourceStop <$> elements (sources (svc w))), []. simpl.
    rewrite app_nil_r, <- !app_assoc. split; [done|]. split; [|done].
    apply Forall_fmap, Forall_true. done.
  - destruct (audioPayload m) as [p|].
    + eexists [], [_]. simpl. rewrite <- !app_assoc.
      split; [done|]. split; [done|]. by repeat constructor.
    + exists [], []. simpl. by rewrite app_nil_r, app_assoc.
Qed.

Lemma turnTrace_handle (m : LiveServerMessage) (clock : Q) (w : World) :
  trace (handle m clock w)
  = trace w ++ turnTrace audioDuration (ServerMessage m clock) w.
Proof.
  unfold turnTrace; simpl.
  destruct (handle_trace m clock w) as (mid & post & -> & _).
  by rewrite drop_app_length.
Qed.


End ToolCalls.

(** ** Teardown *)

Lemma disconnect_returned (w w' : World) :
  disconnect w = (w', Returned) →
  inputAudioContext (svc w') = None
  ∧ outputAudioContext (svc w') = None
  ∧ activeStream (svc w') = None
  ∧ sources (svc w') = ∅
  ∧ nextStartTime (svc w') = nextStartTime (svc w)
  ∧ sessionPromise (svc w') = sessionPromise (svc w)
  ∧ outputNode (svc w') = outputNode (svc w).
Proof.
  unfold disconnect.
  destruct (closeIfPresent _ _) as [w3|] eqn:H3; [|done].
  destruct (closeIfPresent _ w3) as [w4|] eqn:H4; [|done].
  intros [= <-]. cbn.
  assert (Hc : ∀ f u v, closeIfPresent f u = Some v → svc v = svc u).
  { intros f u v. unfold closeIfPresent, closeContext.
    destruct f; [case_decide|]; naive_solver. }
  assert (Hk : ∀ f u, svc (cancelIfPresent f u) = svc u).
  { intros [[|h]|] u; done. }
  rewrite !Hk, (Hc _ _ _ H4), (Hc _ _ _ H3).
  unfold releaseCapture.
  destruct (processor (svc w)); cbn; destruct (activeStream (svc w)); by cbn.
Qed.

Section AfterTeardown.

Variable audioDuration : string -> Q.
Local Abbreviation handle := (handleServerMessage audioDuration).

Lemma toolPhase_not_playback (m : LiveServerMessage) (w : World) :
  Forall (fun e => ¬ playbackEvent e) ((toolPhase m w).1 ++ (toolPhase m w).2).
Proof.
  apply Forall_app. split.
  - rewrite toolPhase_calls. apply Forall_fmap, Forall_true.
    intros fc Hfc. exact Hfc.
  - unfold toolPhase. destruct (toolCall m) as [tc|]; [|done].
    destruct (toolCallLoop _) as [calls responses]. cbn [snd].
    unfold toolResponseSend.
    destruct responses, (sessionPromise (svc w)); repeat constructor; by intros [].
Qed.


End AfterTeardown.

(** ** Interruption *)

Section Interruption.

Variable audioDuration : string -> Q.
Local Abbreviation handle := (handleServerMessage audioDuration).

Lemma startsSince_handle_audio
    (m : LiveServerMessage) (clock : Q) (w : World) (p : string) :
  live w → isInterrupted m = false → audioPayload m = Some p →
  startsSince w (handle m clock w) = [Qmax (nextStartTime (svc w)) clock].
Proof.
  intros Hl Hi Hp. unfold startsSince.
  rewrite (handle_audio _ _ _ _ _ Hl Hi Hp). cbn.
  rewrite drop_app_length, !startTimes_app.
  destruct (toolPhase_calls_obs m w) as (_ & _ & ->).
  destruct (toolPhase_send_obs m w) as (_ & -> & _). done.
Qed.

(** C3: handling an interruption with the output graph in place stops
    every scheduled source, empties the set and puts the cursor back to 0;
    the source of the next audio message then starts at [max 0 clock],
    whatever the cursor was before. *)
Theorem interrupt_clears_playback
    (w : World) (m : LiveServerMessage) (clock : Q) :
  live w → isInterrupted m = true →
  let w' := handle m clock w in
  sources (svc w') = ∅
  ∧ nextStartTime (svc w') = 0%Q
  ∧ (∀ s, s ∈ sources (svc w) →
       SourceStop s ∈ turnTrace audioDuration (ServerMessage m clock) w)
  ∧ ∀ m' clock' p,
      isInterrupted m' = false → audioPayload m' = Some p →
      startsSince w' (handle m' clock' w') = [Qmax 0 clock'].
Proof.
  intros Hl Hi w'.
  assert (Hw' : w' = withSvc (setPlayback 0 ∅ (svc w))
            (emit ((toolPhase m w).1
                   ++ (SourceStop <$> elements (sources (svc w)))
                   ++ (toolPhase m w).2) w))
    by (by apply handle_interrupted).
  split_and!.
  - by rewrite Hw'.
  - by rewrite Hw'.
  - intros s Hs.
    pose proof (turnTrace_handle audioDuration m clock w) as Ht.
    fold w' in Ht. rewrite Hw' in Ht at 1. cbn in Ht.
    apply app_inv_head in Ht. rewrite <- Ht.
    rewrite !elem_of_app. right; left.
    apply list_elem_of_fmap. exists s. split; [done|].
    by apply elem_of_elements.
  - intros m' clock' p Hi' Hp'.
    assert (Hl' : live w') by (rewrite Hw'; exact Hl).
    rewrite (startsSince_handle_audio _ _ _ _ Hl' Hi' Hp').
    by rewrite Hw'.
Qed.

End Interruption.

(** ** Invariants of a service instance *)

Lemma releaseCapture_frame (w : World) :
  svc (releaseCapture w) = svc w
  ∧ closed (releaseCapture w) = closed w
  ∧ frames (releaseCapture w) = frames w
  ∧ nextId (releaseCapture w) = nextId w.
Proof.
  unfold releaseCapture.
  destruct (processor (svc w)); cbn; destruct (activeStream (svc w)); by cbn.
Qed.

Lemma closeIfPresent_frame (field : option nat) (w w' : World) :
  closeIfPresent field w = Some w' →
  svc w' = svc w ∧ nextId w' = nextId w
  ∧ closed w' = match field with
                | Some c => {[c]} ∪ closed w
                | None => closed w
                end.
Proof.
  unfold closeIfPresent, closeContext.
  destruct field; [case_decide|]; naive_solver.
Qed.

Lemma cancelIfPresent_frame (field : option nat) (w : World) :
  svc (cancelIfPresent field w) = svc w
  ∧ closed (cancelIfPresent field w) = closed w
  ∧ nextId (cancelIfPresent field w) = nextId w.
Proof. by destruct field as [[|h]|]. Qed.

Section Invariants.

Variable audioDuration : string -> Q.
Local Abbreviation handle := (handleServerMessage audioDuration).
Local Abbreviation perform' := (perform audioDuration).
Local Abbreviation run' := (run audioDuration).

Lemma run_snoc (acts : list Action) (a : Action) (w : World) :
  run' (acts ++ [a]) w = perform' a (run' acts w).
Proof. unfold run. by rewrite foldl_app. Qed.

Lemma run_cons (a : Action) (acts : list Action) (w : World) :
  run' (a :: acts) w = run' acts (perform' a w).
Proof. done. Qed.

(** Induction over the runs that lead to a world. *)
Lemma reachable_ind (P : World → Prop) :
  P initWorld →
  (∀ w a, reachable audioDuration w → P w → P (perform' a w)) →
  ∀ w, reachable audioDuration w → P w.
Proof.
  intros Hinit Hstep w [acts ->].
  induction acts as [|a acts IH] using rev_ind; [done|].
  rewrite run_snoc. apply Hstep; [by exists acts | done].
Qed.

Lemma reachable_perform (a : Action) (w : World) :
  reachable audioDuration w → reachable audioDuration (perform' a w).
Proof. intros [acts ->]. exists (acts ++ [a]). by rewrite run_snoc. Qed.

(** Service fields and counters after the handler. *)
Lemma handle_frame (m : LiveServerMessage) (clock : Q) (w : World) :
  inputAudioContext (svc (handle m clock w)) = inputAudioContext (svc w)
  ∧ outputAudioContext (svc (handle m clock w)) = outputAudioContext (svc w)
  ∧ outputNode (svc (handle m clock w)) = outputNode (svc w)
  ∧ closed (handle m clock w) = closed w
  ∧ (nextId w ≤ nextId (handle m clock w))%nat.
Proof.
  rewrite handle_unfold; cbn zeta.
  destruct (outputAudioContext (svc w)) eqn:Ho;
    [destruct (outputNode (svc w)) eqn:Hn|];
    [destruct (isInterrupted m); [|destruct (audioPayload m)]|..];
    cbn; rewrite ?Ho, ?Hn; split_and!; try done; lia.
Qed.

Lemma updateVisualizer_frame (spectrum : list Byte.byte) (w : World) :
  inputAudioContext (svc (updateVisualizer spectrum w)) = inputAudioContext (svc w)
  ∧ outputAudioContext (svc (updateVisualizer spectrum w)) = outputAudioContext (svc w)
  ∧ outputNode (svc (updateVisualizer spectrum w)) = outputNode (svc w)
  ∧ nextStartTime (svc (updateVisualizer spectrum w)) = nextStartTime (svc w)
  ∧ sources (svc (updateVisualizer spectrum w)) = sources (svc w)
  ∧ closed (updateVisualizer spectrum w) = closed w
  ∧ (nextId w ≤ nextId (updateVisualizer spectrum w))%nat.
Proof.
  unfold updateVisualizer. destruct (analyser (svc w)); cbn;
    split_and!; try done; lia.
Qed.

Lemma onopen_frame (w : World) :
  inputAudioContext (svc (onopen w)) = inputAudioContext (svc w)
  ∧ outputAudioContext (svc (onopen w)) = outputAudioContext (svc w)
  ∧ outputNode (svc (onopen w)) = outputNode (svc w)
  ∧ nextStartTime (svc (onopen w)) = nextStartTime (svc w)
  ∧ sources (svc (onopen w)) = sources (svc w)
  ∧ closed (onopen w) = closed w
  ∧ (nextId w ≤ nextId (onopen w))%nat.
Proof.
  unfold onopen, startInputStreaming.
  destruct (inputAudioContext (svc w)) eqn:Hi, (activeStream (svc w)),
    (sessionPromise (svc w)); cbn; rewrite ?Hi; split_and!; try done; lia.
Qed.




Lemma contextsOpen_frame (w w' : World) :
  inputAudioContext (svc w') = inputAudioContext (svc w) →
  outputAudioContext (svc w') = outputAudioContext (svc w) →
  closed w' = closed w → (nextId w ≤ nextId w')%nat →
  contextsOpen w → contextsOpen w'.
Proof.
  intros Hi Ho Hc Hf [H1 H2 H3 H4].
  split; rewrite ?Hi, ?Ho, ?Hc.
  - intros c Hin. destruct (H1 c Hin). split; [done|lia].
  - intros c Hin. destruct (H2 c Hin). split; [done|lia].
  - intros c Hin. specialize (H3 c Hin). lia.
  - done.
Qed.

(** With its contexts open, [disconnect] runs to its end. *)
Lemma disconnect_returns (w : World) :
  contextsOpen w →
  ∃ w', disconnect w = (w', Returned)
        ∧ nextId w' = nextId w
        ∧ ∀ c, c ∈ closed w' → (c < nextId w)%nat.
Proof.
  intros [H1 H2 H3 H4]. unfold disconnect.
  destruct (releaseCapture_frame w) as (Hs2 & Hc2 & _ & Hf2).
  destruct (closeIfPresent (inputAudioContext (svc (releaseCapture w)))
              (releaseCapture w)) as [w3|] eqn:E3.
  2:{ exfalso. unfold closeIfPresent, closeContext in E3. rewrite Hs2, Hc2 in E3.
      destruct (inputAudioContext (svc w)) as [c|] eqn:Hi; [|done].
      case_decide; [|done]. by destruct (H1 c eq_refl). }
  destruct (closeIfPresent_frame _ _ _ E3) as (Hs3 & Hf3 & Hc3).
  rewrite Hs2, Hc2 in Hc3.
  destruct (closeIfPresent (outputAudioContext (svc w3)) w3) as [w4|] eqn:E4.
  2:{ exfalso. unfold closeIfPresent, closeContext in E4. rewrite Hs3, Hs2 in E4.
      destruct (outputAudioContext (svc w)) as [c|] eqn:Ho; [|done].
      case_decide as Hin; [|done]. rewrite Hc3 in Hin.
      destruct (H2 c eq_refl) as [Hnc _].
      destruct (inputAudioContext (svc w)) as [c'|] eqn:Hi; [|done].
      apply elem_of_union in Hin as [Hin|Hin]; [|done].
      apply elem_of_singleton in Hin. by apply (H4 c' c). }
  destruct (closeIfPresent_frame _ _ _ E4) as (Hs4 & Hf4 & Hc4).
  rewrite Hs3, Hs2 in Hc4.
  destruct (cancelIfPresent_frame (animationFrameId (svc w4)) w4)
    as (Hs5 & Hc5 & Hf5).
  eexists. split; [done|]. cbn. rewrite Hf5, Hf4, Hf3, Hf2. split; [done|].
  rewrite Hc5, Hc4, Hc3. intros c Hin.
  destruct (outputAudioContext (svc w)) as [co|] eqn:Ho;
    destruct (inputAudioContext (svc w)) as [ci|] eqn:Hi;
    repeat (apply elem_of_union in Hin as [Hin|Hin]);
    try apply elem_of_singleton in Hin; subst;
    try (by apply H3);
    try (by destruct (H1 _ eq_refl));
    try (by destruct (H2 _ eq_refl)).
Qed.

Lemma contextsOpen_perform (a : Action) (w : World) :
  contextsOpen w → contextsOpen (perform' a w).
Proof.
  intros Hw.
  destruct a as [i o sp| | | | |m clock|s|h sp|]; cbn [perform].
  - destruct Hw as [H1 H2 H3 H4].
    unfold connectStart. destruct i; [|done]. destruct o; cbn [negb].
    + cbv zeta.
      match goal with |- contextsOpen (updateVisualizer _ ?u) =>
        destruct (updateVisualizer_frame sp u) as (Ei & Eo & _ & _ & _ & Ec & Ef);
        apply (contextsOpen_frame u); try done
      end.
      split; cbn.
      * intros c [= <-]. split; [|lia]. intros Hin. specialize (H3 _ Hin). lia.
      * intros c [= <-]. split; [|lia]. intros Hin. specialize (H3 _ Hin). lia.
      * intros c Hin. specialize (H3 _ Hin). lia.
      * intros a b [= <-] [= <-]. lia.
    + split; cbn.
      * intros c [= <-]. split; [|lia]. intros Hin. specialize (H3 _ Hin). lia.
      * intros c Hc. destruct (H2 c Hc). split; [done|lia].
      * intros c Hin. specialize (H3 _ Hin). lia.
      * intros a b [= <-] Hb. destruct (H2 b Hb) as [_ Hlt]. clear -Hlt. lia.
  - apply (contextsOpen_frame w); try done. cbn. lia.
  - destruct (onopen_frame w) as (? & ? & _ & _ & _ & ? & ?).
    by apply (contextsOpen_frame w).
  - by apply (contextsOpen_frame w).
  - by apply (contextsOpen_frame w).
  - destruct (handle_frame m clock w) as (? & ? & _ & ? & ?).
    by apply (contextsOpen_frame w).
  - by apply (contextsOpen_frame w).
  - unfold animationFrame. case_decide; [|done].
    match goal with |- contextsOpen (updateVisualizer _ ?u) =>
      destruct (updateVisualizer_frame sp u) as (Ei & Eo & _ & _ & _ & Ec & Ef)
    end.
    by apply (contextsOpen_frame w).
  - destruct (disconnect_returns w Hw) as (w' & Hd & Hf & Hc).
    rewrite Hd. cbn [fst].
    destruct (disconnect_returned _ _ Hd) as (Hi & Ho & _).
    split; rewrite ?Hi, ?Ho, ?Hf; try done.
Qed.

Lemma reachable_contextsOpen (w : World) :
  reachable audioDuration w → contextsOpen w.
Proof.
  apply reachable_ind.
  - split; by cbn.
  - intros w' a _. apply contextsOpen_perform.
Qed.


(** [disconnect] on an instance that never connected. *)
Example disconnect_on_fresh_instance :
  disconnect initWorld = (initWorld, Returned).
Proof. by vm_compute. Qed.

(** A [connect] still waiting for the microphone when [disconnect] runs
    goes on afterwards: it stores the stream it is given then. *)
Example connect_resumes_after_disconnect :
  let acts := [ConnectStart true true []; Disconnect; MicrophoneGranted] in
  activeStream (svc (run audioDuration acts initWorld)) = Some 6
  ∧ inputAudioContext (svc (run audioDuration acts initWorld)) = None.
Proof. by vm_compute. Qed.

End Invariants.

(** ** Gapless scheduling *)

Section Scheduling.

Variable audioDuration : string -> Q.
Local Abbreviation handle := (handleServerMessage audioDuration).
Local Abbreviation run' := (run audioDuration).

Lemma handle_audio_step
    (m : LiveServerMessage) (clock : Q) (w : World) (p : string) :
  live w → isInterrupted m = false → audioPayload m = Some p →
  live (handle m clock w)
  ∧ nextStartTime (svc (handle m clock w))
    = (Qmax (nextStartTime (svc w)) clock + audioDuration p)%Q
  ∧ ∃ turn, trace (handle m clock w) = trace w ++ turn
            ∧ startTimes turn = [Qmax (nextStartTime (svc w)) clock].
Proof.
  intros Hl Hi Hp.
  pose proof (startsSince_handle_audio audioDuration _ clock _ _ Hl Hi Hp) as Hs.
  pose proof (turnTrace_handle audioDuration m clock w) as Ht.
  unfold startsSince in Hs. rewrite Ht, drop_app_length in Hs.
  rewrite (handle_audio _ _ _ _ _ Hl Hi Hp) in *.
  split_and!; [exact Hl | done | eauto].
Qed.

(** A run of audio messages, seen from its first world. *)
Lemma run_audio (msgs : list (LiveServerMessage * Q)) (w : World) :
  live w →
  Forall (fun mc => isInterrupted mc.1 = false ∧ is_Some (audioPayload mc.1))
    msgs →
  ∃ turns,
    trace (run' (messageActions msgs) w) = trace w ++ turns
    ∧ length (startTimes turns) = length msgs
    ∧ ∀ i m c p,
        msgs !! i = Some (m, c) → audioPayload m = Some p →
        let cursor := nextStartTime (svc (run' (take i (messageActions msgs)) w)) in
        startTimes turns !! i = Some (Qmax cursor c)
        ∧ nextStartTime (svc (run' (take (S i) (messageActions msgs)) w))
          = (Qmax cursor c + audioDuration p)%Q.
Proof.
  intros Hl Hall. revert w Hl.
  induction Hall as [|[m0 c0] msgs [Hi0 [p0 Hp0]] _ IH]; intros w Hl.
  - exists []. cbn. rewrite app_nil_r. split_and!; try done.
  - cbn in Hi0, Hp0.
    destruct (handle_audio_step m0 c0 w p0 Hl Hi0 Hp0)
      as (Hl1 & Hcur & turn & Htr & Hst).
    destruct (IH _ Hl1) as (turns & Htrs & Hlen & Hnth).
    exists (turn ++ turns). cbn [messageActions fmap list_fmap].
    rewrite run_cons. fold (messageActions msgs).
    split_and!.
    + change (perform audioDuration (ServerMessage (m0, c0).1 (m0, c0).2) w)
        with (handle m0 c0 w).
      by rewrite Htrs, Htr, app_assoc.
    + rewrite startTimes_app, Hst. cbn. by rewrite Hlen.
    + intros [|i] m c p Hm Hp; rewrite startTimes_app, Hst.
      * cbn in Hm. injection Hm as <- <-.
        assert (p = p0) as -> by congruence. cbn. split; [done|].
        exact Hcur.
      * cbn in Hm. cbn [take]. rewrite !run_cons.
        exact (Hnth i m c p Hm Hp).
Qed.

(** C2: in a run of audio messages every source starts at
    [max nextStartTime clock] as they stand when its message is handled;
    consecutive start times never overlap, and they abut whenever the clock
    has not passed the cursor. *)
Theorem enqueue_gapless (w : World) (msgs : list (LiveServerMessage * Q)) :
  live w →
  Forall (fun mc => isInterrupted mc.1 = false ∧ is_Some (audioPayload mc.1))
    msgs →
  let acts := messageActions msgs in
  let starts := startsSince w (run' acts w) in
  length starts = length msgs
  ∧ (∀ i m c, msgs !! i = Some (m, c) →
       starts !! i
       = Some (Qmax (nextStartTime (svc (run' (take i acts) w))) c))
  ∧ (∀ i m c p s s',
       msgs !! i = Some (m, c) → audioPayload m = Some p →
       starts !! i = Some s → starts !! S i = Some s' →
       (s + audioDuration p <= s')%Q
       ∧ ∀ m' c', msgs !! S i = Some (m', c') →
                  (c' <= s + audioDuration p)%Q →
                  (s' == s + audioDuration p)%Q).
Proof.
  intros Hl Hall acts starts.
  destruct (run_audio msgs w Hl Hall) as (turns & Htr & Hlen & Hnth).
  assert (Hstarts : starts = startTimes turns).
  { unfold starts, startsSince, acts. by rewrite Htr, drop_app_length. }
  assert (Hpay : ∀ i m c, msgs !! i = Some (m, c) → ∃ p, audioPayload m = Some p).
  { intros i m c Hm.
    apply (Forall_lookup_1 _ _ _ _ Hall) in Hm as [_ [p Hp]]. eauto. }
  rewrite Hstarts. split_and!.
  - exact Hlen.
  - intros i m c Hm. destruct (Hpay _ _ _ Hm) as [p Hp].
    by destruct (Hnth i m c p Hm Hp).
  - intros i m c p s s' Hm Hp Hs Hs'.
    destruct (Hnth i m c p Hm Hp) as [Hsi Hcur]. cbn zeta in Hsi, Hcur.
    rewrite Hsi in Hs. injection Hs as <-.
    assert (is_Some (msgs !! S i)) as [[m' c'] Hm'].
    { apply lookup_lt_is_Some. rewrite <- Hlen.
      apply lookup_lt_is_Some. eauto. }
    destruct (Hpay _ _ _ Hm') as [p' Hp'].
    destruct (Hnth (S i) m' c' p' Hm' Hp') as [Hsi' _]. cbn zeta in Hsi'.
    fold acts in Hcur, Hsi'. rewrite Hcur in Hsi'.
    rewrite Hsi' in Hs'. injection Hs' as <-.
    split; [apply Q.le_max_l|].
    intros m'' c'' Hm'' Hle. rewrite Hm' in Hm''. injection Hm'' as <- <-.
    by apply Q.max_l.
Qed.

End Scheduling.

(** ** The cursor over the life of an instance *)

Section Cursor.

Variable audioDuration : string -> Q.
Local Abbreviation handle := (handleServerMessage audioDuration).
Local Abbreviation perform' := (perform audioDuration).
Local Abbreviation run' := (run audioDuration).

Lemma connect_keeps_playback (w : World) :
  (∀ i o sp,
     nextStartTime (svc (connectStart i o sp w)) = nextStartTime (svc w)
     ∧ sources (svc (connectStart i o sp w)) = sources (svc w))
  ∧ nextStartTime (svc (connectResume w)) = nextStartTime (svc w)
  ∧ sources (svc (connectResume w)) = sources (svc w)
  ∧ nextStartTime (svc (onopen w)) = nextStartTime (svc w)
  ∧ sources (svc (onopen w)) = sources (svc w).
Proof.
  split_and!; try done.
  - intros i o sp. unfold connectStart.
    destruct i; [|done]. destruct o; [|done]. done.
  - by destruct (onopen_frame w) as (_ & _ & _ & -> & _).
  - by destruct (onopen_frame w) as (_ & _ & _ & _ & -> & _).
Qed.

Lemma pristine_perform (a : Action) (w : World) :
  ¬ enqueuesAudio a →
  nextStartTime (svc w) = 0%Q ∧ sources (svc w) = ∅ →
  nextStartTime (svc (perform' a w)) = 0%Q ∧ sources (svc (perform' a w)) = ∅.
Proof.
  intros Ha [Ht Hs].
  destruct (connect_keeps_playback w) as (Hc & Hr1 & Hr2 & Ho1 & Ho2).
  destruct a as [i o sp| | | | |m clock|s|h sp|]; cbn [perform].
  - destruct (Hc i o sp) as [-> ->]. done.
  - by rewrite Hr1, Hr2.
  - by rewrite Ho1, Ho2.
  - done.
  - done.
  - cbn in Ha. rewrite handle_unfold; cbn zeta.
    destruct (audioPayload m) as [p|]; [by destruct Ha|].
    destruct (outputAudioContext (svc w)); [destruct (outputNode (svc w))|];
      [destruct (isInterrupted m)|..]; done.
  - cbn. rewrite Hs. split; [done|]. apply empty_difference_L.
  - unfold animationFrame. case_decide; [|done].
    by destruct (updateVisualizer_frame sp (setFrames (frames w ∖ {[h]}) w))
      as (_ & _ & _ & -> & -> & _).
  - unfold disconnect.
    destruct (releaseCapture_frame w) as (Hs2 & _).
    destruct (closeIfPresent _ _) as [w3|] eqn:H3; cbn; [|by rewrite Hs2].
    destruct (closeIfPresent_frame _ _ _ H3) as (Hs3 & _).
    destruct (closeIfPresent _ w3) as [w4|] eqn:H4; cbn; [|by rewrite Hs3, Hs2].
    destruct (closeIfPresent_frame _ _ _ H4) as (Hs4 & _).
    destruct (cancelIfPresent_frame (animationFrameId (svc w4)) w4) as (Hs5 & _).
    by rewrite Hs5, Hs4, Hs3, Hs2.
Qed.

(** C7, as the code has it: the cursor is 0 and the set empty for as
    long as the instance has been given no audio since its construction,
    in particular after its first [connect]; [connect] itself writes to
    neither. *)
Theorem cursor_zero_until_first_audio (acts : list Action) :
  Forall (fun a => ¬ enqueuesAudio a) acts →
  (nextStartTime (svc (run' acts initWorld)) = 0%Q
   ∧ sources (svc (run' acts initWorld)) = ∅)
  ∧ ∀ w, (∀ i o sp,
            nextStartTime (svc (connectStart i o sp w)) = nextStartTime (svc w)
            ∧ sources (svc (connectStart i o sp w)) = sources (svc w))
         ∧ nextStartTime (svc (connectResume w)) = nextStartTime (svc w)
         ∧ sources (svc (connectResume w)) = sources (svc w)
         ∧ nextStartTime (svc (onopen w)) = nextStartTime (svc w)
         ∧ sources (svc (onopen w)) = sources (svc w).
Proof.
  intros Hacts. split; [|apply connect_keeps_playback].
  induction acts as [|a acts IH] using rev_ind; [done|].
  apply Forall_app in Hacts as [Hacts Ha]. apply Forall_inv in Ha.
  rewrite run_snoc. apply pristine_perform; [exact Ha|]. by apply IH.
Qed.

End Cursor.

(** C7 as stated fails: a second [connect] on an instance whose first
    session played five seconds of audio finds the cursor at 5. *)
Lemma reconnect_keeps_cursor :
  let session :=
    connectActions ++ [ServerMessage (audioMessage "UklGRg==") 0; Disconnect] in
  let w := run (fun _ => 5%Q) (session ++ connectActions) initWorld in
  startsSince (run (fun _ => 5%Q) session initWorld) w = []
  ∧ nextStartTime (svc w) = 5%Q
  ∧ ¬ (nextStartTime (svc w) == 0)%Q.
Proof. vm_compute. split_and!; [done|done|discriminate]. Qed.

(** ** Amplitude monitor *)

Lemma sumBins_from (acc : Z) (l : list Byte.byte) :
  (acc ≤ foldl (fun sum b => sum + Z.of_N (Byte.to_N b)) acc l
   ≤ acc + 255 * Z.of_nat (length l))%Z.
Proof.
  revert acc. induction l as [|b l IH]; intros acc; cbn [foldl length].
  - lia.
  - specialize (IH (acc + Z.of_N (Byte.to_N b))%Z).
    pose proof (Byte.to_N_bounded b). lia.
Qed.

Lemma sumBins_bounds (l : list Byte.byte) :
  (0 ≤ sumBins l ≤ 255 * Z.of_nat (length l))%Z.
Proof. apply (sumBins_from 0). Qed.

Lemma getByteFrequencyData_length (spectrum : list Byte.byte) (n : nat) (b : Byte.byte) :
  length (getByteFrequencyData spectrum (replicate n b)) = n.
Proof.
  unfold getByteFrequencyData.
  rewrite length_app, length_take, length_drop, !length_replicate. lia.
Qed.

Lemma averageVolume_mean (spectrum : list Byte.byte) :
  ∃ dataArray,
    length dataArray = frequencyBinCount
    ∧ averageVolume spectrum = (inject_Z (sumBins dataArray) / 128)%Q.
Proof.
  exists (getByteFrequencyData spectrum (replicate frequencyBinCount Byte.x00)).
  split; [apply getByteFrequencyData_length|].
  unfold averageVolume. cbv zeta. by rewrite getByteFrequencyData_length.
Qed.

Lemma averageVolume_range (spectrum : list Byte.byte) :
  amplitudeInRange (averageVolume spectrum).
Proof.
  destruct (averageVolume_mean spectrum) as (l & Hlen & ->).
  pose proof (sumBins_bounds l) as Hb. rewrite Hlen in Hb.
  change (Z.of_nat frequencyBinCount) with 128%Z in Hb.
  unfold amplitudeInRange, Qle, Qdiv, Qmult, Qinv, inject_Z. cbn. lia.
Qed.

Lemma updateVisualizer_trace (spectrum : list Byte.byte) (w : World) :
  trace (updateVisualizer spectrum w)
  = trace w ++ match analyser (svc w) with
               | Some _ => [OnAudioData (averageVolume spectrum)]
               | None => []
               end.
Proof.
  unfold updateVisualizer. destruct (analyser (svc w)); cbn; [done|].
  by rewrite app_nil_r.
Qed.

Lemma updateVisualizer_amplitudeOk (spectrum : list Byte.byte) (w : World) :
  Forall amplitudeOk (trace w) →
  Forall amplitudeOk (trace (updateVisualizer spectrum w)).
Proof.
  intros Hw. rewrite updateVisualizer_trace. apply Forall_app. split; [done|].
  destruct (analyser (svc w)); [|done].
  apply Forall_singleton. apply averageVolume_range.
Qed.

Lemma toolPhase_amplitudeOk (m : LiveServerMessage) (w : World) :
  Forall amplitudeOk ((toolPhase m w).1 ++ (toolPhase m w).2).
Proof.
  apply Forall_app. split.
  - rewrite toolPhase_calls. apply Forall_fmap, Forall_true. done.
  - unfold toolPhase. destruct (toolCall m) as [tc|]; [|done].
    destruct (toolCallLoop _) as [calls responses]. cbn [snd].
    unfold toolResponseSend.
    destruct responses, (sessionPromise (svc w)); by repeat constructor.
Qed.

Lemma playbackEvent_amplitudeOk (l : list Event) :
  Forall playbackEvent l → Forall amplitudeOk l.
Proof. intros H. eapply Forall_impl; [exact H|]. by intros []. Qed.

Lemma disconnect_amplitudeOk (w : World) :
  Forall amplitudeOk (trace w) →
  Forall amplitudeOk (trace (disconnect w).1).
Proof.
  intros Hw.
  assert (H2 : Forall amplitudeOk (trace (releaseCapture w))).
  { unfold releaseCapture.
    destruct (processor (svc w)); cbn; destruct (activeStream (svc w)); cbn;
      rewrite ?Forall_app; split_and?; done || by repeat constructor. }
  assert (Hclose : ∀ f u v, closeIfPresent f u = Some v →
            Forall amplitudeOk (trace u) → Forall amplitudeOk (trace v)).
  { intros f u v. unfold closeIfPresent, closeContext.
    destruct f; [case_decide|]; intros [= <-] Hu; cbn; [|done].
    apply Forall_app. split; [done|]. by repeat constructor. }
  assert (Hcancel : ∀ f u, Forall amplitudeOk (trace u) →
            Forall amplitudeOk (trace (cancelIfPresent f u))).
  { intros [[|h]|] u Hu; cbn; try done.
    apply Forall_app. split; [done|]. by repeat constructor. }
  unfold disconnect.
  destruct (closeIfPresent _ _) as [w3|] eqn:E3; [|done].
  destruct (closeIfPresent _ w3) as [w4|] eqn:E4; cbn; eauto.
Qed.

Section Amplitude.

Variable audioDuration : string -> Q.
Local Abbreviation perform' := (perform audioDuration).
Local Abbreviation run' := (run audioDuration).

Lemma perform_amplitudeOk (a : Action) (w : World) :
  Forall amplitudeOk (trace w) → Forall amplitudeOk (trace (perform' a w)).
Proof.
  intros Hw.
  destruct a as [i o sp| | | | |m clock|s|h sp|]; cbn [perform].
  - unfold connectStart. destruct i; [|done]. destruct o; [|done].
    by apply updateVisualizer_amplitudeOk.
  - done.
  - unfold onopen, startInputStreaming. cbn.
    apply Forall_app. split; [|by repeat constructor].
    by destruct (inputAudioContext (svc w)), (activeStream (svc w)),
      (sessionPromise (svc w)).
  - cbn. apply Forall_app. split; [done|by repeat constructor].
  - cbn. apply Forall_app. split; [done|by repeat constructor].
  - destruct (handle_trace audioDuration m clock w)
      as (mid & post & -> & Hmid & Hpost).
    pose proof (toolPhase_amplitudeOk m w) as Htp.
    apply Forall_app in Htp as [Htp1 Htp2].
    rewrite !Forall_app. split_and!; auto using playbackEvent_amplitudeOk.
  - done.
  - unfold animationFrame. case_decide; [|done].
    by apply updateVisualizer_amplitudeOk.
  - by apply disconnect_amplitudeOk.
Qed.


End Amplitude.

(** ** The theorems on the sample runs *)

Lemma connectedWorld_live : live connectedWorld.
Proof. split; vm_compute; eexists; reflexivity. Defined.

Lemma playingWorld_reachable : reachable sampleDuration playingWorld.
Proof.
  exists (connectActions ++
          [ServerMessage (audioMessage "AAAAAAAA") 1;
           ServerMessage (audioMessage "AAAA") 2]).
  unfold playingWorld, connectedWorld, run. by rewrite foldl_app.
Defined.

Lemma sampleAudio_plays :
  Forall (fun mc => isInterrupted mc.1 = false ∧ is_Some (audioPayload mc.1))
    sampleAudio.
Proof. repeat constructor; eexists; reflexivity. Defined.

(** Three chunks: the second abuts the first (the clock, 2, is behind the
    cursor, 3); the third starts late, at the clock. *)
Lemma enqueue_gapless_sample :
  live connectedWorld
  ∧ Forall (fun mc => isInterrupted mc.1 = false ∧ is_Some (audioPayload mc.1))
      sampleAudio
  ∧ let starts :=
      startsSince connectedWorld
        (run sampleDuration (messageActions sampleAudio) connectedWorld) in
    length starts = length sampleAudio
    ∧ (∀ i m c, sampleAudio !! i = Some (m, c) →
         starts !! i
         = Some (Qmax (nextStartTime
                         (svc (run sampleDuration
                                 (take i (messageActions sampleAudio))
                                 connectedWorld))) c))
    ∧ (∀ i m c p s s',
         sampleAudio !! i = Some (m, c) → audioPayload m = Some p →
         starts !! i = Some s → starts !! S i = Some s' →
         (s + sampleDuration p <= s')%Q
         ∧ ∀ m' c', sampleAudio !! S i = Some (m', c') →
                    (c' <= s + sampleDuration p)%Q →
                    (s' == s + sampleDuration p)%Q).
Proof.
  split; [exact connectedWorld_live|]. split; [exact sampleAudio_plays|].
  exact (enqueue_gapless sampleDuration connectedWorld sampleAudio
           connectedWorld_live sampleAudio_plays).
Defined.

Lemma interrupt_clears_playback_sample :
  let m := interruptingAudioMessage "AAAA" in
  let w' := handleServerMessage sampleDuration m 3 playingWorld in
  live playingWorld
  ∧ isInterrupted m = true
  ∧ sources (svc w') = ∅
  ∧ nextStartTime (svc w') = 0%Q
  ∧ (∀ s, s ∈ sources (svc playingWorld) →
       SourceStop s ∈ turnTrace sampleDuration (ServerMessage m 3) playingWorld)
  ∧ ∀ m' clock' p,
      isInterrupted m' = false → audioPayload m' = Some p →
      startsSince w' (handleServerMessage sampleDuration m' clock' w')
      = [Qmax 0 clock'].
Proof.
  intros m w'.
  assert (Hl : live playingWorld) by (split; vm_compute; eexists; reflexivity).
  split; [exact Hl|]. split; [reflexivity|].
  exact (interrupt_clears_playback sampleDuration playingWorld m 3 Hl eq_refl).
Defined.




Lemma connectActions_no_audio :
  Forall (fun a => ¬ enqueuesAudio a) connectActions.
Proof. repeat (constructor; [exact (fun H => H)|]). constructor. Defined.

Lemma cursor_zero_after_first_connect :
  Forall (fun a => ¬ enqueuesAudio a) connectActions
  ∧ nextStartTime (svc connectedWorld) = 0%Q
  ∧ sources (svc connectedWorld) = ∅.
Proof.
  split; [exact connectActions_no_audio|].
  exact (proj1 (cursor_zero_until_first_audio sampleDuration connectActions
                  connectActions_no_audio)).
Defined.


(** ** PCM codec round trip *)

Lemma truncate_spec (x : Q) :
  (inject_Z (PCM.truncate x) - 1 < x)%Q
  ∧ (x < inject_Z (PCM.truncate x) + 1)%Q
  ∧ ((0 <= x)%Q → (0 ≤ PCM.truncate x)%Z ∧ (inject_Z (PCM.truncate x) <= x)%Q)
  ∧ ((x <= 0)%Q → (PCM.truncate x ≤ 0)%Z ∧ (x <= inject_Z (PCM.truncate x))%Q).
Proof.
  destruct x as [a b].
  unfold PCM.truncate, Qlt, Qle, Qminus, Qplus, Qopp, inject_Z. cbn.
  pose proof (Z.quot_rem' a (Z.pos b)) as Hqr.
  destruct (Z_le_gt_dec 0 a) as [Ha|Ha].
  - pose proof (Z.rem_bound_pos_pos a (Z.pos b) ltac:(lia) Ha).
    assert (0 ≤ a ÷ Z.pos b)%Z by (apply Z.quot_pos; lia).
    split_and!; intros; try split; nia.
  - pose proof (Z.rem_bound_pos_pos (- a) (Z.pos b) ltac:(lia) ltac:(lia)) as Hr.
    rewrite Z.rem_opp_l in Hr by lia.
    assert (a ÷ Z.pos b ≤ 0)%Z.
    { apply Z.opp_nonneg_nonpos. rewrite <- Z.quot_opp_l by lia.
      apply Z.quot_pos; lia. }
    split_and!; intros; try split; nia.
Qed.

Lemma clamp_id (s : Q) : (-1 <= s)%Q → (s <= 1)%Q → (PCM.clamp s == s)%Q.
Proof.
  intros Hlo Hhi. unfold PCM.clamp.
  destruct (Q.min_spec 1 s) as [[Hm' Hm]|[Hm' Hm]];
    destruct (Q.max_spec (-1) (Qmin 1 s)) as [[HM' HM]|[HM' HM]]; lra.
Qed.

(** The quantised sample is within one step of the scaled sample. *)
Lemma floatToInt16_spec (s : Q) :
  (-1 <= s)%Q → (s <= 1)%Q →
  let n := PCM.floatToInt16 s in
  (-32767 ≤ n ≤ 32767)%Z
  ∧ (inject_Z n - 1 < s * 32767)%Q ∧ (s * 32767 < inject_Z n + 1)%Q.
Proof.
  intros Hlo Hhi. unfold PCM.floatToInt16.
  change (inject_Z PCM.scale) with 32767%Q.
  pose proof (clamp_id s Hlo Hhi) as Hc.
  destruct (truncate_spec (PCM.clamp s * 32767)) as (Hl & Hu & Hpos & Hneg).
  set (t := PCM.truncate (PCM.clamp s * 32767)) in *.
  assert (Ht : (-32767 ≤ t ≤ 32767)%Z).
  { destruct (Qlt_le_dec (PCM.clamp s * 32767) 0) as [Hx|Hx].
    - destruct (Hneg ltac:(lra)) as [Hz Hq]. split; [|lia].
      rewrite Zle_Qle. change (inject_Z (-32767)) with (-32767)%Q. lra.
    - destruct (Hpos Hx) as [Hz Hq]. split; [lia|].
      rewrite Zle_Qle. change (inject_Z 32767) with 32767%Q. lra. }
  assert (Hw : PCM.toInt16 t = t).
  { unfold PCM.toInt16. Z.to_euclidean_division_equations; lia. }
  cbv zeta. rewrite Hw. split; [exact Ht|]. split; lra.
Qed.

(** Writing a 16-bit integer as two bytes and reading them back. *)
Lemma int16Bytes_roundtrip (n : Z) (rest : list Z) :
  (-32768 ≤ n < 32768)%Z →
  PCM.int16sOfBytes (PCM.int16Bytes n ++ rest) = n :: PCM.int16sOfBytes rest.
Proof.
  intros Hn. cbn. f_equal. unfold PCM.int16OfBytes. cbv zeta.
  destruct (Z.ltb_spec (n mod 65536 mod 256 + 256 * (n mod 65536 / 256)) 32768);
    Z.to_euclidean_division_equations; lia.
Qed.

(** C8: for samples in [-1,1], the encoding has two bytes per sample
    and decoding it gives every sample back to within 1/32767. *)
Theorem codec_roundtrip (samples : list Q) (rate : Z) :
  Forall (fun s => (-1 <= s)%Q ∧ (s <= 1)%Q) samples →
  length (PCM.encode samples) = 2 * length samples
  ∧ Forall2 (fun s r => (Qabs (r - s) <= 1 # 32767)%Q) samples
      (PCM.channelData (PCM.bytesToAudioBuffer (PCM.encode samples) rate)).
Proof.
  induction 1 as [|s samples [Hlo Hhi] _ [IHlen IH]]; [by split; constructor|].
  destruct (floatToInt16_spec s Hlo Hhi) as (Hn & Hl & Hu).
  split; [unfold PCM.encode in *; cbn [flat_map];
          rewrite length_app, IHlen; cbn; lia|].
  unfold PCM.bytesToAudioBuffer, PCM.encode in *.
  cbn [PCM.channelData flat_map] in *.
  rewrite int16Bytes_roundtrip by lia. cbn [fmap list_fmap].
  constructor; [|exact IH].
  apply Qabs_Qle_condition. unfold PCM.rescale, Qdiv.
  change (/ inject_Z PCM.scale)%Q with (1 # 32767)%Q.
  set (y := inject_Z (PCM.floatToInt16 s)) in *. split; lra.
Qed.

Lemma codec_roundtrip_sample :
  let samples := [0%Q; (1 # 2)%Q; (-1)%Q; (99999 # 100000)%Q] in
  Forall (fun s => (-1 <= s)%Q ∧ (s <= 1)%Q) samples
  ∧ length (PCM.encode samples) = 2 * length samples
  ∧ Forall2 (fun s r => (Qabs (r - s) <= 1 # 32767)%Q) samples
      (PCM.channelData (PCM.bytesToAudioBuffer (PCM.encode samples) 24000)).
Proof.
  intros samples.
  assert (Hs : Forall (fun s => (-1 <= s)%Q ∧ (s <= 1)%Q) samples).
  { repeat constructor; by vm_compute. }
  split; [exact Hs|]. exact (codec_roundtrip samples 24000 Hs).
Defined.

(** The bound rests on the decoder dividing by the encoder's scale: with
    the divisor 32768 the sample 0.99999 comes back too far off. *)
Lemma roundtrip_needs_matching_scale :
  let s := (99999 # 100000)%Q in
  PCM.int16sOfBytes (PCM.encode [s]) = [32766%Z]
  ∧ ¬ (Qabs (PCM.rescale 32768 32766 - s) <= 1 # 32767)%Q.
Proof. split; [by vm_compute|]. intros H. vm_compute in H. by apply H. Qed.

(** * Beyond the claims *)

(** ** What an action other than a message does to playback *)

Lemma startedIds_app (l k : list Event) :
  startedIds (l ++ k) = startedIds l ++ startedIds k.
Proof. apply omap_app. Qed.

Lemma stoppedIds_app (l k : list Event) :
  stoppedIds (l ++ k) = stoppedIds l ++ stoppedIds k.
Proof. apply omap_app. Qed.

Lemma quiet_ids (l : list Event) :
  Forall (fun e => ¬ playbackEvent e) l →
  startedIds l = [] ∧ stoppedIds l = []
  ∧ ∀ e, e ∈ l → ¬ playbackEvent e.
Proof.
  intros Hl. split_and!.
  - induction Hl as [|e l He _ IH]; [done|]. destruct e; try done; by destruct He.
  - induction Hl as [|e l He _ IH]; [done|]. destruct e; try done; by destruct He.
  - by apply Forall_forall.
Qed.

Lemma releaseCapture_trace (w : World) :
  ∃ turn, trace (releaseCapture w) = trace w ++ turn
          ∧ Forall (fun e => ¬ playbackEvent e) turn.
Proof.
  unfold releaseCapture.
  destruct (processor (svc w)) as [p|]; cbn;
    destruct (activeStream (svc w)) as [s|]; cbn.
  - exists [ProcessorDisconnect p; TrackStop s]. rewrite <- app_assoc.
    split; [done|]. repeat constructor; by intros [].
  - exists [ProcessorDisconnect p]. split; [done|].
    repeat constructor; by intros [].
  - exists [TrackStop s]. split; [done|]. repeat constructor; by intros [].
  - exists []. by rewrite app_nil_r.
Qed.

Lemma closeIfPresent_trace (field : option nat) (w w' : World) :
  closeIfPresent field w = Some w' →
  trace w' = trace w ++ match field with
                        | Some c => [ContextClose c]
                        | None => []
                        end.
Proof.
  unfold closeIfPresent, closeContext.
  destruct field; [case_decide|]; intros [= <-]; cbn; by rewrite ?app_nil_r.
Qed.

Lemma cancelIfPresent_trace (field : option nat) (w : World) :
  ∃ turn, trace (cancelIfPresent field w) = trace w ++ turn
          ∧ Forall (fun e => ¬ playbackEvent e) turn.
Proof.
  destruct field as [[|h]|]; cbn.
  - exists []. by rewrite app_nil_r.
  - exists [CancelAnimationFrame (S h)]. split; [done|].
    repeat constructor; by intros [].
  - exists []. by rewrite app_nil_r.
Qed.

Lemma disconnect_trace (w : World) :
  ∃ turn, trace (disconnect w).1 = trace w ++ turn
          ∧ Forall (fun e => ¬ playbackEvent e) turn.
Proof.
  unfold disconnect.
  destruct (releaseCapture_trace w) as (t2 & Ht2 & Hq2).
  destruct (closeIfPresent _ _) as [w3|] eqn:E3; [|by exists t2].
  pose proof (closeIfPresent_trace _ _ _ E3) as Ht3.
  destruct (closeIfPresent _ w3) as [w4|] eqn:E4; cbn [fst].
  - pose proof (closeIfPresent_trace _ _ _ E4) as Ht4.
    destruct (cancelIfPresent_trace (animationFrameId (svc w4)) w4)
      as (t5 & Ht5 & Hq5).
    cbn. rewrite Ht5, Ht4, Ht3, Ht2. rewrite <- !app_assoc.
    eexists. split; [done|].
    rewrite !Forall_app. split_and!; try done.
    + destruct (inputAudioContext _); repeat constructor; by intros [].
    + destruct (outputAudioContext _); repeat constructor; by intros [].
  - rewrite Ht3, Ht2, <- app_assoc. eexists. split; [done|].
    rewrite Forall_app. split; [done|].
    destruct (inputAudioContext _); repeat constructor; by intros [].
Qed.

Lemma disconnect_playback (w : World) :
  nextStartTime (svc (disconnect w).1) = nextStartTime (svc w)
  ∧ sources (svc (disconnect w).1) ⊆ sources (svc w)
  ∧ nextId (disconnect w).1 = nextId w.
Proof.
  unfold disconnect.
  destruct (releaseCapture_frame w) as (Hs2 & _ & _ & Hn2).
  destruct (closeIfPresent _ _) as [w3|] eqn:E3; cbn [fst];
    [|by rewrite Hs2, Hn2].
  destruct (closeIfPresent_frame _ _ _ E3) as (Hs3 & Hn3 & _).
  destruct (closeIfPresent _ w3) as [w4|] eqn:E4; cbn [fst];
    [|by rewrite Hs3, Hs2, Hn3, Hn2].
  destruct (closeIfPresent_frame _ _ _ E4) as (Hs4 & Hn4 & _).
  destruct (cancelIfPresent_frame (animationFrameId (svc w4)) w4)
    as (Hs5 & _ & Hn5).
  cbn -[cancelIfPresent]. rewrite Hn5, Hn4, Hn3, Hn2, Hs5, Hs4, Hs3, Hs2.
  split_and!; [done|set_solver|done].
Qed.

Section Quiet.

Variable audioDuration : string -> Q.
Local Abbreviation perform' := (perform audioDuration).

(** Every action but a server message leaves the cursor alone, starts
    and stops no source, and can only take sources out of the set. *)
Lemma perform_quiet (a : Action) (w : World) :
  isServerMessage a = false →
  ∃ turn,
    trace (perform' a w) = trace w ++ turn
    ∧ Forall (fun e => ¬ playbackEvent e) turn
    ∧ nextStartTime (svc (perform' a w)) = nextStartTime (svc w)
    ∧ sources (svc (perform' a w)) ⊆ sources (svc w)
    ∧ (nextId w ≤ nextId (perform' a w))%nat.
Proof.
  intros Ha.
  destruct a as [i o sp| | | | |m clock|s|h sp|]; try discriminate Ha;
    cbn [perform].
  - unfold connectStart. destruct i; cbn [negb].
    2:{ exists []. rewrite app_nil_r. by split_and!. }
    destruct o; cbn [negb].
    2:{ exists []. cbn. rewrite app_nil_r. split_and!; try done. lia. }
    exists [OnAudioData (averageVolume sp)]. cbn.
    split_and!; try done; [|lia]. repeat constructor; by intros [].
  - exists []. cbn. rewrite app_nil_r. split_and!; try done. lia.
  - destruct (onopen_frame w) as (_ & _ & _ & Ht & Hs & _ & Hn).
    exists [OnOpen]. rewrite Ht, Hs. split_and!; try done.
    + unfold onopen, startInputStreaming. cbn.
      by destruct (inputAudioContext (svc w)), (activeStream (svc w)),
        (sessionPromise (svc w)).
    + repeat constructor; by intros [].
  - exists [OnClose]. split_and!; try done. repeat constructor; by intros [].
  - exists [OnError]. split_and!; try done. repeat constructor; by intros [].
  - exists []. cbn. rewrite app_nil_r. split_and!; try done.
    intros x Hx. by apply elem_of_difference in Hx as [? _].
  - unfold animationFrame. case_decide.
    2:{ exists []. rewrite app_nil_r. by split_and!. }
    match goal with |- context [updateVisualizer sp ?u] =>
      destruct (updateVisualizer_frame sp u) as (_ & _ & _ & Ht & Hs & _ & Hn);
      pose proof (updateVisualizer_trace sp u) as Htr
    end.
    rewrite Htr, Ht, Hs. cbn [svc setFrames trace nextId] in *.
    eexists. split_and!; try done.
    destruct (analyser (svc w)); repeat constructor; by intros [].
  - destruct (disconnect_trace w) as (turn & Htr & Hq).
    destruct (disconnect_playback w) as (Ht & Hs & Hn).
    exists turn. split_and!; try done. lia.
Qed.

End Quiet.

(** ** What a message does to playback *)

Section MessagePlayback.

Variable audioDuration : string -> Q.
Local Abbreviation handle := (handleServerMessage audioDuration).
Local Abbreviation perform' := (perform audioDuration).

(** The three things a message can do to the scheduler: nothing, the
    flush of an interruption, or one enqueue. *)
Lemma handle_playback (m : LiveServerMessage) (clock : Q) (w : World) :
  (∃ turn,
     handle m clock w = emit turn w
     ∧ Forall (fun e => ¬ playbackEvent e) turn)
  ∨ (∃ before after,
       handle m clock w
       = withSvc (setPlayback 0 ∅ (svc w))
           (emit (before ++ (SourceStop <$> elements (sources (svc w))) ++ after) w)
       ∧ Forall (fun e => ¬ playbackEvent e) before
       ∧ Forall (fun e => ¬ playbackEvent e) after)
  ∨ (∃ before p,
       audioPayload m = Some p
       ∧ handle m clock w
         = allocate 1
             (withSvc
                (setPlayback (Qmax (nextStartTime (svc w)) clock + audioDuration p)
                   ({[nextId w]} ∪ sources (svc w)) (svc w))
                (emit (before
                       ++ [SourceStart (nextId w)
                             (Qmax (nextStartTime (svc w)) clock)
                             (audioDuration p)]) w))
       ∧ Forall (fun e => ¬ playbackEvent e) before).
Proof.
  pose proof (toolPhase_not_playback m w) as Hq.
  destruct (decide (is_Some (outputAudioContext (svc w))
                    ∧ is_Some (outputNode (svc w)))) as [Hl|Hd].
  - destruct (isInterrupted m) eqn:Hi.
    + right; left. apply Forall_app in Hq as [Hq1 Hq2].
      eexists _, _. split; [by apply handle_interrupted|done].
    + destruct (audioPayload m) as [p|] eqn:Hp.
      * right; right. exists ((toolPhase m w).1 ++ (toolPhase m w).2), p.
        split; [done|]. rewrite (handle_audio _ _ _ _ _ Hl Hi Hp).
        by rewrite <- app_assoc.
      * left. eexists. split; [by apply handle_quiet|done].
  - left. eexists. split; [by apply handle_detached|done].
Qed.

Lemma stoppedIds_stops (l : list nat) :
  stoppedIds (SourceStop <$> l) = l ∧ startedIds (SourceStop <$> l) = [].
Proof.
  induction l as [|x l [IH1 IH2]]; [done|]. split; [|exact IH2].
  change (x :: stoppedIds (SourceStop <$> l) = x :: l). by f_equal.
Qed.

Lemma sourcesTracked_perform (a : Action) (w : World) :
  sourcesTracked w → sourcesTracked (perform' a w).
Proof.
  intros [H1 H2 H3 H4 H5 H6].
  destruct (isServerMessage a) eqn:Ha.
  - destruct a as [| | | | |m clock| | |]; try discriminate Ha. cbn [perform].
    destruct (handle_playback m clock w)
      as [(turn & -> & Hq)|[(bf & af & -> & Hb & Ha')|(bf & p & _ & -> & Hb)]].
    + destruct (quiet_ids turn Hq) as (Hs & Hp & _).
      split; cbn; rewrite ?startedIds_app, ?stoppedIds_app, ?Hs, ?Hp,
        ?app_nil_r; done.
    + destruct (quiet_ids bf Hb) as (Hsb & Hpb & _).
      destruct (quiet_ids af Ha') as (Hsa & Hpa & _).
      destruct (stoppedIds_stops (elements (sources (svc w)))) as [Hst Hss].
      split; cbn; rewrite ?startedIds_app, ?stoppedIds_app, ?Hsb, ?Hpb, ?Hsa,
        ?Hpa, ?Hst, ?Hss, ?app_nil_r; cbn; try done.
      * intros s Hs. apply elem_of_app in Hs as [Hs|Hs]; [by apply H4|].
        apply H1. by apply elem_of_elements.
      * apply NoDup_app. split_and!; [done| |apply NoDup_elements].
        intros s Hs Hs'. apply elem_of_elements in Hs'. by apply (H2 s).
    + destruct (quiet_ids bf Hb) as (Hsb & Hpb & _).
      split; cbn; rewrite ?startedIds_app, ?stoppedIds_app, ?Hsb, ?Hpb; cbn;
        rewrite ?app_nil_r.
      * intros s Hs. apply elem_of_app.
        apply elem_of_union in Hs as [Hs|Hs]; [right|left; by apply H1].
        apply elem_of_singleton in Hs as ->. by left.
      * intros s Hs Hs'. apply elem_of_union in Hs as [Hs|Hs]; [|by apply (H2 s)].
        apply elem_of_singleton in Hs as ->.
        specialize (H3 _ (H4 _ Hs')). lia.
      * intros s Hs. apply elem_of_app in Hs as [Hs|Hs].
        -- specialize (H3 _ Hs). lia.
        -- apply list_elem_of_singleton in Hs as ->. lia.
      * intros s Hs. apply elem_of_app. left. by apply H4.
      * apply NoDup_app. split_and!; [done| |apply NoDup_singleton].
        intros s Hs Hs'. apply list_elem_of_singleton in Hs' as ->.
        specialize (H3 _ Hs). lia.
      * done.
  - destruct (perform_quiet audioDuration a w Ha)
      as (turn & Htr & Hq & _ & Hsrc & Hn).
    destruct (quiet_ids turn Hq) as (Hs & Hp & _).
    split; rewrite Htr, ?startedIds_app, ?stoppedIds_app, ?Hs, ?Hp, ?app_nil_r;
      try done.
    + intros s Hs'. apply H1. by apply Hsrc.
    + intros s Hs'. apply H2. by apply Hsrc.
    + intros s Hs'. specialize (H3 _ Hs'). lia.
Qed.

Lemma reachable_sourcesTracked (w : World) :
  reachable audioDuration w → sourcesTracked w.
Proof.
  apply reachable_ind.
  - split; cbn; try apply NoDup_nil_2; intros s Hs.
    + by apply not_elem_of_empty in Hs.
    + by apply not_elem_of_empty in Hs.
    + by apply not_elem_of_nil in Hs.
    + by apply not_elem_of_nil in Hs.
  - intros w' a _. apply sourcesTracked_perform.
Qed.

End MessagePlayback.

(** ** Playback windows *)

Lemma started_event_id (tr : list Event) (s : nat) (t d : Q) :
  SourceStart s t d ∈ tr → s ∈ startedIds tr.
Proof.
  intros H. apply list_elem_of_omap. by exists (SourceStart s t d).
Qed.

Lemma quiet_no_start (turn : list Event) (s : nat) (t d : Q) :
  Forall (fun e => ¬ playbackEvent e) turn → SourceStart s t d ∉ turn.
Proof.
  intros Hq Hin. by apply (proj1 (Forall_forall _ _) Hq _ Hin).
Qed.

Section Windows.

Variable audioDuration : string -> Q.
Hypothesis duration_nonneg : ∀ payload, (0 <= audioDuration payload)%Q.
Local Abbreviation perform' := (perform audioDuration).

Lemma windowsOrdered_quiet (w w' : World) (turn : list Event) :
  trace w' = trace w ++ turn →
  Forall (fun e => ¬ playbackEvent e) turn →
  nextStartTime (svc w') = nextStartTime (svc w) →
  sources (svc w') ⊆ sources (svc w) →
  windowsOrdered w → windowsOrdered w'.
Proof.
  intros Htr Hq Ht Hs [H1 H2 H3].
  assert (Hold : ∀ s t d, SourceStart s t d ∈ trace w' → SourceStart s t d ∈ trace w).
  { intros s t d Hin. rewrite Htr in Hin.
    apply elem_of_app in Hin as [Hin|Hin]; [done|].
    by apply quiet_no_start in Hin. }
  split; rewrite ?Ht.
  - intros s t d Hin Hst. apply (H1 s); [by apply Hs|by apply Hold].
  - intros s1 t1 d1 s2 t2 d2 Hi1 Hi2 Hne Hs1 Hs2.
    apply (H2 s1 t1 d1 s2 t2 d2); auto.
  - done.
Qed.

Lemma windowsOrdered_perform (a : Action) (w : World) :
  sourcesTracked w → windowsOrdered w → windowsOrdered (perform' a w).
Proof.
  intros Hst Hw.
  destruct (isServerMessage a) eqn:Ha.
  2:{ destruct (perform_quiet audioDuration a w Ha)
        as (turn & Htr & Hq & Ht & Hsrc & _).
      by apply (windowsOrdered_quiet w _ turn). }
  destruct a as [| | | | |m clock| | |]; try discriminate Ha. cbn [perform].
  destruct (handle_playback audioDuration m clock w)
    as [(turn & -> & Hq)|[(bf & af & -> & Hb & Ha')|(bf & p & _ & -> & Hb)]].
  - by apply (windowsOrdered_quiet w _ turn).
  - split; cbn.
    + intros s t d Hs. by apply not_elem_of_empty in Hs.
    + intros s1 t1 d1 s2 t2 d2 Hs. by apply not_elem_of_empty in Hs.
    + apply Qle_refl.
  - destruct Hw as [H1 H2 H3]. destruct Hst as [G1 _ G3 _ _ _].
    pose proof (Q.le_max_l (nextStartTime (svc w)) clock) as Hmax.
    pose proof (duration_nonneg p) as Hd.
    set (start := Qmax (nextStartTime (svc w)) clock) in *.
    assert (Hev : ∀ s t d,
              SourceStart s t d ∈ trace w ++ bf ++ [SourceStart (nextId w) start (audioDuration p)] →
              (SourceStart s t d ∈ trace w ∧ (s < nextId w)%nat)
              ∨ (s = nextId w ∧ t = start ∧ d = audioDuration p)).
    { intros s t d Hin. rewrite !elem_of_app in Hin.
      destruct Hin as [Hin|[Hin|Hin]].
      - left. split; [done|]. apply G3. by eapply started_event_id.
      - by apply quiet_no_start in Hin.
      - apply list_elem_of_singleton in Hin. injection Hin as -> -> ->. by right. }
    assert (Hmem : ∀ s, s ∈ ({[nextId w]} ∪ sources (svc w) : gset nat) →
              s = nextId w ∨ (s ∈ sources (svc w) ∧ (s < nextId w)%nat)).
    { intros s Hs. apply elem_of_union in Hs as [Hs|Hs].
      - left. by apply elem_of_singleton in Hs.
      - right. split; [done|]. by apply G3, G1. }
    split; cbn.
    + intros s t d Hs Hin.
      destruct (Hev _ _ _ Hin) as [[Hold Hlt]|(-> & -> & ->)]; [|apply Qle_refl].
      destruct (Hmem _ Hs) as [->|[Hs' _]]; [lia|].
      specialize (H1 _ _ _ Hs' Hold). lra.
    + intros s1 t1 d1 s2 t2 d2 Hs1 Hs2 Hne Hin1 Hin2.
      destruct (Hev _ _ _ Hin1) as [[Ho1 Hl1]|(-> & -> & ->)];
        destruct (Hev _ _ _ Hin2) as [[Ho2 Hl2]|(-> & -> & ->)].
      * destruct (Hmem _ Hs1) as [->|[Hs1' _]]; [lia|].
        destruct (Hmem _ Hs2) as [->|[Hs2' _]]; [lia|].
        by apply (H2 s1 t1 d1 s2 t2 d2).
      * destruct (Hmem _ Hs1) as [->|[Hs1' _]]; [lia|].
        left. specialize (H1 _ _ _ Hs1' Ho1). lra.
      * destruct (Hmem _ Hs2) as [->|[Hs2' _]]; [lia|].
        right. specialize (H1 _ _ _ Hs2' Ho2). lra.
      * done.
    + lra.
Qed.

Lemma reachable_windowsOrdered (w : World) :
  reachable audioDuration w → windowsOrdered w.
Proof.
  intros Hr. cut (sourcesTracked w ∧ windowsOrdered w); [by intros []|].
  revert w Hr. apply reachable_ind.
  - split; [exact (reachable_sourcesTracked audioDuration _
                     (ex_intro _ [] eq_refl))|].
    split; cbn; [| |apply Qle_refl].
    + intros s t d Hs. by apply not_elem_of_empty in Hs.
    + intros s1 t1 d1 s2 t2 d2 Hs. by apply not_elem_of_empty in Hs.
  - intros w a _ [Hst Hw]. split.
    + by apply sourcesTracked_perform.
    + by apply windowsOrdered_perform.
Qed.

(** X1: with buffer durations that are not negative, in every state an
    instance can reach the playback windows of the sources still
    scheduled end no later than the cursor and are pairwise disjoint. *)
Theorem scheduled_windows_disjoint (w : World) :
  reachable audioDuration w →
  (∀ s t d, s ∈ sources (svc w) → SourceStart s t d ∈ trace w →
     (t + d <= nextStartTime (svc w))%Q)
  ∧ (∀ s1 t1 d1 s2 t2 d2,
       s1 ∈ sources (svc w) → s2 ∈ sources (svc w) → s1 ≠ s2 →
       SourceStart s1 t1 d1 ∈ trace w → SourceStart s2 t2 d2 ∈ trace w →
       (t1 + d1 <= t2)%Q ∨ (t2 + d2 <= t1)%Q)
  ∧ (0 <= nextStartTime (svc w))%Q.
Proof.
  intros Hr. destruct (reachable_windowsOrdered w Hr) as [H1 H2 H3]. auto.
Qed.

End Windows.

(** X2: in every reachable state each member of [sources] has been
    started and not stopped; no node is ever started twice or stopped
    twice, and only started nodes are stopped. *)
Theorem sources_started_not_stopped (audioDuration : string -> Q) (w : World) :
  reachable audioDuration w →
  (∀ s, s ∈ sources (svc w) →
     s ∈ startedIds (trace w) ∧ s ∉ stoppedIds (trace w))
  ∧ NoDup (startedIds (trace w))
  ∧ NoDup (stoppedIds (trace w))
  ∧ (∀ s, s ∈ stoppedIds (trace w) → s ∈ startedIds (trace w)).
Proof.
  intros Hr.
  destruct (reachable_sourcesTracked audioDuration w Hr) as [H1 H2 H3 H4 H5 H6].
  split_and!; auto.
Qed.

(** ** The visualizer loop *)

Lemma amplitudes_app (l k : list Event) :
  amplitudes (l ++ k) = amplitudes l ++ amplitudes k.
Proof. apply omap_app. Qed.

Lemma amplitudes_silent (l : list Event) :
  Forall (fun e => ∀ a, e ≠ OnAudioData a) l → amplitudes l = [].
Proof.
  induction 1 as [|e l He _ IH]; [done|].
  destruct e; try done. by destruct (He amplitude).
Qed.

Lemma playback_silent (l : list Event) :
  Forall playbackEvent l → amplitudes l = [].
Proof.
  intros H. apply amplitudes_silent. eapply Forall_impl; [exact H|].
  intros [] Hp a; done.
Qed.

Lemma toolPhase_silent (m : LiveServerMessage) (w : World) :
  amplitudes (toolPhase m w).1 = [] ∧ amplitudes (toolPhase m w).2 = [].
Proof.
  split; apply amplitudes_silent.
  - rewrite toolPhase_calls. apply Forall_fmap, Forall_true. by intros fc a.
  - unfold toolPhase. destruct (toolCall m) as [tc|]; [|done].
    destruct (toolCallLoop _) as [calls responses]. cbn [snd].
    unfold toolResponseSend.
    destruct responses, (sessionPromise (svc w)); by repeat constructor.
Qed.

Lemma disconnect_silent (w : World) :
  amplitudes (trace (disconnect w).1) = amplitudes (trace w).
Proof.
  assert (Hr : amplitudes (trace (releaseCapture w)) = amplitudes (trace w)).
  { unfold releaseCapture.
    destruct (processor (svc w)); cbn; destruct (activeStream (svc w)); cbn;
      rewrite ?amplitudes_app; cbn; by rewrite ?app_nil_r. }
  unfold disconnect.
  destruct (closeIfPresent _ _) as [w3|] eqn:E3; [|done].
  pose proof (closeIfPresent_trace _ _ _ E3) as Ht3.
  assert (H3 : amplitudes (trace w3) = amplitudes (trace w)).
  { rewrite Ht3, amplitudes_app, Hr.
    destruct (inputAudioContext _); cbn; by rewrite app_nil_r. }
  destruct (closeIfPresent _ w3) as [w4|] eqn:E4; cbn [fst]; [|done].
  pose proof (closeIfPresent_trace _ _ _ E4) as Ht4.
  assert (H4 : amplitudes (trace w4) = amplitudes (trace w)).
  { rewrite Ht4, amplitudes_app, H3.
    destruct (outputAudioContext _); cbn; by rewrite app_nil_r. }
  cbn -[cancelIfPresent].
  destruct (animationFrameId (svc w4)) as [[|h]|]; cbn; try done.
  rewrite amplitudes_app, H4. cbn. by rewrite app_nil_r.
Qed.

Section Visualizer.

Variable audioDuration : string -> Q.
Local Abbreviation handle := (handleServerMessage audioDuration).
Local Abbreviation perform' := (perform audioDuration).
Local Abbreviation run' := (run audioDuration).

Lemma handle_frames (m : LiveServerMessage) (clock : Q) (w : World) :
  frames (handle m clock w) = frames w
  ∧ animationFrameId (svc (handle m clock w)) = animationFrameId (svc w)
  ∧ analyser (svc (handle m clock w)) = analyser (svc w).
Proof.
  destruct (handle_playback audioDuration m clock w)
    as [(turn & -> & _)|[(bf & af & -> & _)|(bf & p & _ & -> & _)]]; done.
Qed.

Lemma perform_amplitudes (a : Action) (w : World) :
  amplitudes (trace (perform' a w))
  = amplitudes (trace w) ++ reportedBy a w.
Proof.
  destruct a as [i o sp| | | | |m clock|s|h sp|]; cbn [perform reportedBy].
  - unfold connectStart. destruct i; cbn [negb]; [|by rewrite app_nil_r].
    destruct o; cbn [negb]; [|by rewrite app_nil_r].
    cbn. by rewrite amplitudes_app.
  - by rewrite app_nil_r.
  - unfold onopen, startInputStreaming. cbn. rewrite amplitudes_app. cbn.
    by destruct (inputAudioContext (svc w)), (activeStream (svc w)),
      (sessionPromise (svc w)).
  - cbn. by rewrite amplitudes_app.
  - cbn. by rewrite amplitudes_app.
  - destruct (handle_trace audioDuration m clock w)
      as (mid & post & -> & Hmid & Hpost).
    destruct (toolPhase_silent m w) as [H1 H2].
    by rewrite !amplitudes_app, H1, H2, (playback_silent _ Hmid),
      (playback_silent _ Hpost).
  - by rewrite app_nil_r.
  - unfold animationFrame. case_decide; [|by rewrite app_nil_r].
    rewrite updateVisualizer_trace, amplitudes_app. cbn.
    by destruct (analyser (svc w)).
  - by rewrite disconnect_silent, app_nil_r.
Qed.

(** X3: a value reaches [onAudioData] only from the first tick inside
    [connect] and from an animation frame that is still pending while the
    analyser exists; messages, session events, source events and
    [disconnect] report none. *)
Theorem amplitude_reported_only_by_ticks (a : Action) (w : World) :
  amplitudes (trace (perform' a w))
  = amplitudes (trace w) ++ reportedBy a w.
Proof. apply perform_amplitudes. Qed.

Lemma disconnect_frames (w w' : World) :
  disconnect w = (w', Returned) →
  animationFrameId (svc w') = animationFrameId (svc w)
  ∧ analyser (svc w') = analyser (svc w)
  ∧ frames w' = match animationFrameId (svc w) with
                | Some (S h) => frames w ∖ {[S h]}
                | _ => frames w
                end.
Proof.
  unfold disconnect.
  destruct (releaseCapture_frame w) as (Hs2 & _ & Hf2 & _).
  destruct (closeIfPresent _ _) as [w3|] eqn:E3; [|done].
  destruct (closeIfPresent_frame _ _ _ E3) as (Hs3 & _).
  assert (Hf3 : frames w3 = frames w).
  { revert E3. unfold closeIfPresent, closeContext.
    destruct (inputAudioContext _); [case_decide|]; intros [= <-]; done. }
  destruct (closeIfPresent _ w3) as [w4|] eqn:E4; [|done].
  destruct (closeIfPresent_frame _ _ _ E4) as (Hs4 & _).
  assert (Hf4 : frames w4 = frames w).
  { revert E4. unfold closeIfPresent, closeContext.
    destruct (outputAudioContext _); [case_decide|]; intros [= <-]; done. }
  intros [= <-].
  assert (Hs : svc w4 = svc w) by (by rewrite Hs4, Hs3, Hs2).
  rewrite Hs. destruct (animationFrameId (svc w)) as [[|h]|] eqn:E; cbn;
    rewrite ?Hs, ?Hf4; done.
Qed.

Lemma idsKnown_perform (a : Action) (w : World) :
  idsKnown w → idsKnown (perform' a w).
Proof.
  intros [Hpos Hfr].
  destruct a as [i o sp| | | | |m clock|s|h sp|]; cbn [perform].
  - unfold connectStart. destruct i; [|done]. destruct o; cbn [negb].
    + split; simpl; [lia|]. intros f Hf.
      apply elem_of_union in Hf as [Hf|Hf]; [|specialize (Hfr _ Hf); lia].
      apply elem_of_singleton in Hf. lia.
    + split; cbn; [lia|]. intros f Hf. specialize (Hfr _ Hf). lia.
  - split; cbn; [lia|]. intros f Hf. specialize (Hfr _ Hf). lia.
  - unfold onopen, startInputStreaming.
    destruct (inputAudioContext (svc w)), (activeStream (svc w)),
      (sessionPromise (svc w)); split; cbn; try lia; try done;
      intros f Hf; specialize (Hfr _ Hf); lia.
  - done.
  - done.
  - destruct (handle_frames m clock w) as (Hf & _).
    destruct (handle_frame audioDuration m clock w) as (_ & _ & _ & _ & Hn).
    split; [lia|]. rewrite Hf. intros f Hin. specialize (Hfr _ Hin). lia.
  - done.
  - unfold animationFrame. case_decide as Hh; [|done].
    unfold updateVisualizer. simpl. destruct (analyser (svc w)).
    + split; simpl; [lia|]. intros f Hf.
      apply elem_of_union in Hf as [Hf|Hf].
      * apply elem_of_singleton in Hf. lia.
      * apply elem_of_difference in Hf as [Hf _]. specialize (Hfr _ Hf). lia.
    + split; simpl; [done|]. intros f Hf.
      apply elem_of_difference in Hf as [Hf _]. by apply Hfr.
  - destruct (disconnect_playback w) as (_ & _ & Hn). unfold idsKnown.
    rewrite Hn. split; [done|]. intros f Hf. apply Hfr.
    revert Hf. unfold disconnect.
    destruct (releaseCapture_frame w) as (_ & _ & Hf2 & _).
    destruct (closeIfPresent _ _) as [w3|] eqn:E3; cbn [fst]; [|by rewrite Hf2].
    assert (Hf3 : frames w3 = frames w).
    { revert E3. unfold closeIfPresent, closeContext.
      destruct (inputAudioContext _); [case_decide|]; intros [= <-];
        by rewrite <- Hf2. }
    destruct (closeIfPresent _ w3) as [w4|] eqn:E4; cbn [fst]; [|by rewrite Hf3].
    assert (Hf4 : frames w4 = frames w).
    { revert E4. unfold closeIfPresent, closeContext.
      destruct (outputAudioContext _); [case_decide|]; intros [= <-];
        by rewrite <- Hf3. }
    cbn -[cancelIfPresent].
    destruct (animationFrameId (svc w4)) as [[|h]|]; cbn; rewrite ?Hf4; try done.
    intros Hf. by apply elem_of_difference in Hf as [Hf _].
Qed.

Lemma reachable_idsKnown (w : World) :
  reachable audioDuration w → idsKnown w.
Proof.
  apply reachable_ind.
  - split; cbn; [lia|]. intros f Hf. by apply not_elem_of_empty in Hf.
  - intros w' a _. apply idsKnown_perform.
Qed.

Lemma oneLoop_perform (a : Action) (w : World) :
  isConnectStart a = false → contextsOpen w → idsKnown w →
  oneLoop w → oneLoop (perform' a w).
Proof.
  intros Ha Hctx [Hpos Hfr] Hw.
  destruct a as [i o sp| | | | |m clock|s|h sp|]; try discriminate Ha;
    cbn [perform]; try done.
  - unfold onopen, startInputStreaming.
    by destruct (inputAudioContext (svc w)), (activeStream (svc w)),
      (sessionPromise (svc w)).
  - destruct (handle_frames m clock w) as (Hf & Hid & _).
    unfold oneLoop. by rewrite Hf, Hid.
  - unfold animationFrame. case_decide as Hh; [|done].
    destruct (Hw h Hh) as [Hid Hne].
    unfold updateVisualizer. simpl. destruct (analyser (svc w)); simpl;
      intros f Hf.
    + apply elem_of_union in Hf as [Hf|Hf].
      * apply elem_of_singleton in Hf as ->. split; [done|lia].
      * apply elem_of_difference in Hf as [Hf Hnh].
        destruct (Hw f Hf) as [Hid' _].
        exfalso. apply Hnh. apply elem_of_singleton. congruence.
    + apply elem_of_difference in Hf as [Hf Hnh].
      destruct (Hw f Hf) as [Hid' _].
      exfalso. apply Hnh. apply elem_of_singleton. congruence.
  - destruct (disconnect_returns w Hctx) as (w' & Hd & _).
    rewrite Hd. cbn [fst].
    destruct (disconnect_frames w w' Hd) as (Hid & _ & Hf).
    intros f Hin. rewrite Hf in Hin. rewrite Hid.
    destruct (animationFrameId (svc w)) as [[|h]|] eqn:E.
    + destruct (Hw f Hin) as [Hid' Hne]. rewrite E in Hid'.
      injection Hid' as <-. by destruct Hne.
    + apply elem_of_difference in Hin as [Hin Hnh].
      destruct (Hw f Hin) as [Hid' _]. rewrite E in Hid'.
      injection Hid' as <-. exfalso. apply Hnh. by apply elem_of_singleton.
    + destruct (Hw f Hin) as [Hid' _]. rewrite E in Hid'. discriminate Hid'.
Qed.

Lemma oneLoop_connectStart (i o : bool) (sp : list Byte.byte) (w : World) :
  frames w = ∅ → (0 < nextId w)%nat → oneLoop (connectStart i o sp w).
Proof.
  intros Hf Hpos. unfold connectStart.
  destruct i; cbn [negb].
  2:{ intros f Hin. rewrite Hf in Hin. by apply not_elem_of_empty in Hin. }
  destruct o; cbn [negb]; intros f Hin; simpl in Hin; rewrite Hf in Hin; simpl.
  - apply elem_of_union in Hin as [Hin|Hin]; [|by apply not_elem_of_empty in Hin].
    apply elem_of_singleton in Hin as ->. split; [done|lia].
  - by apply not_elem_of_empty in Hin.
Qed.

(** Without a pending frame nothing but [connect] reports or requests. *)
Lemma idle_loop_perform (a : Action) (w : World) :
  isConnectStart a = false → contextsOpen w → frames w = ∅ →
  frames (perform' a w) = ∅
  ∧ amplitudes (trace (perform' a w)) = amplitudes (trace w).
Proof.
  intros Ha Hctx Hf. split.
  - destruct a as [i o sp| | | | |m clock|s|h sp|]; try discriminate Ha;
      cbn [perform]; try done.
    + unfold onopen, startInputStreaming.
      by destruct (inputAudioContext (svc w)), (activeStream (svc w)),
        (sessionPromise (svc w)).
    + by destruct (handle_frames m clock w) as (-> & _).
    + unfold animationFrame. case_decide as Hh; [|done].
      rewrite Hf in Hh. by apply not_elem_of_empty in Hh.
    + destruct (disconnect_returns w Hctx) as (w' & Hd & _).
      rewrite Hd. cbn [fst].
      destruct (disconnect_frames w w' Hd) as (_ & _ & ->).
      rewrite Hf. destruct (animationFrameId (svc w)) as [[|h]|]; try done.
      apply empty_difference_L.
  - rewrite perform_amplitudes.
    destruct a as [i o sp| | | | |m clock|s|h sp|]; try discriminate Ha;
      cbn [reportedBy]; rewrite ?app_nil_r; try done.
    case_decide as Hh; [|by rewrite app_nil_r].
    rewrite Hf in Hh. by apply not_elem_of_empty in Hh.
Qed.

Lemma disconnect_ends_loop (w : World) :
  contextsOpen w → oneLoop w → frames (disconnect w).1 = ∅.
Proof.
  intros Hctx Hw.
  destruct (disconnect_returns w Hctx) as (w' & Hd & _). rewrite Hd. cbn [fst].
  destruct (disconnect_frames w w' Hd) as (_ & _ & ->).
  apply elem_of_equiv_empty_L. intros f Hin.
  destruct (animationFrameId (svc w)) as [[|h]|] eqn:E.
  - destruct (Hw f Hin) as [Hid Hne]. rewrite E in Hid.
    injection Hid as <-. by destruct Hne.
  - apply elem_of_difference in Hin as [Hin Hnh].
    destruct (Hw f Hin) as [Hid _]. rewrite E in Hid.
    injection Hid as <-. apply Hnh. by apply elem_of_singleton.
  - destruct (Hw f Hin) as [Hid _]. rewrite E in Hid. discriminate Hid.
Qed.

Lemma single_connect_oneLoop (acts : list Action) :
  (length (List.filter isConnectStart acts) ≤ 1)%nat →
  oneLoop (run' acts initWorld)
  ∧ (List.filter isConnectStart acts = [] → frames (run' acts initWorld) = ∅).
Proof.
  induction acts as [|a acts IH] using rev_ind; intros Hlen.
  - split; [|done]. intros f Hf. by apply not_elem_of_empty in Hf.
  - rewrite List.filter_app, length_app in Hlen. cbn in Hlen.
    assert (Hr : reachable audioDuration (run' acts initWorld)) by (by exists acts).
    pose proof (reachable_contextsOpen audioDuration _ Hr) as Hctx.
    pose proof (reachable_idsKnown _ Hr) as Hids.
    rewrite run_snoc, List.filter_app. cbn [List.filter].
    destruct (isConnectStart a) eqn:Ha.
    + cbn in Hlen.
      assert (Hnone : List.filter isConnectStart acts = []).
      { destruct (List.filter isConnectStart acts); [done|]. cbn in Hlen. lia. }
      destruct IH as [_ Hfr]; [rewrite Hnone; cbn; lia|].
      split; [|by rewrite Hnone].
      destruct a as [i o sp| | | | | | | |]; try discriminate Ha. cbn [perform].
      apply oneLoop_connectStart; [by apply Hfr|by destruct Hids].
    + cbn in Hlen. destruct IH as [Hone Hfr]; [lia|]. rewrite app_nil_r.
      split; [by apply oneLoop_perform|].
      intros Hnone. by apply idle_loop_perform; [| |apply Hfr].
Qed.

Lemma idle_loop_run (acts : list Action) (w : World) :
  reachable audioDuration w → frames w = ∅ →
  Forall (fun a => isConnectStart a = false) acts →
  frames (run' acts w) = ∅
  ∧ amplitudes (trace (run' acts w)) = amplitudes (trace w).
Proof.
  intros Hr Hf Hacts. revert w Hr Hf.
  induction Hacts as [|a acts Ha _ IH]; intros w Hr Hf; [done|].
  rewrite run_cons.
  destruct (idle_loop_perform a w Ha (reachable_contextsOpen audioDuration _ Hr) Hf)
    as [Hf' Ham].
  destruct (IH _ (reachable_perform audioDuration a w Hr) Hf') as [Hf'' Ham'].
  split; [done|]. by rewrite Ham', Ham.
Qed.

(** X4: on an instance that [connect] was called on at most once,
    [disconnect] leaves no animation frame pending, and from then on, as
    long as [connect] is not called again, no value is passed to
    [onAudioData] whatever else happens. *)
Theorem visualizer_stops_after_disconnect (before after : list Action) :
  (length (List.filter isConnectStart before) ≤ 1)%nat →
  Forall (fun a => isConnectStart a = false) after →
  let w1 := run' (before ++ [Disconnect]) initWorld in
  frames w1 = ∅
  ∧ frames (run' after w1) = ∅
  ∧ amplitudes (trace (run' after w1)) = amplitudes (trace w1).
Proof.
  intros Hlen Hafter w1.
  assert (Hr : reachable audioDuration (run' before initWorld)) by (by exists before).
  assert (Hf1 : frames w1 = ∅).
  { unfold w1. rewrite run_snoc. cbn [perform].
    apply disconnect_ends_loop.
    - by apply (reachable_contextsOpen audioDuration).
    - by apply single_connect_oneLoop. }
  split; [done|]. apply idle_loop_run; [by eexists|done|done].
Qed.


End Visualizer.

(** ** Contexts over the life of an instance *)

Section Contexts.

Variable audioDuration : string -> Q.
Local Abbreviation handle := (handleServerMessage audioDuration).
Local Abbreviation perform' := (perform audioDuration).
Local Abbreviation run' := (run audioDuration).





Lemma closedIds_app (l k : list Event) :
  closedIds (l ++ k) = closedIds l ++ closedIds k.
Proof. apply omap_app. Qed.

(** What [disconnect] closes, stops and cancels. *)
Lemma disconnect_releases (w w' : World) :
  disconnect w = (w', Returned) →
  (∀ c, inputAudioContext (svc w) = Some c ∨ outputAudioContext (svc w) = Some c →
     c ∈ closed w' ∧ ContextClose c ∈ trace w')
  ∧ (∀ s, activeStream (svc w) = Some s → TrackStop s ∈ trace w')
  ∧ (∀ p, processor (svc w) = Some p → ProcessorDisconnect p ∈ trace w')
  ∧ stoppedIds (trace w') = stoppedIds (trace w)
  ∧ processor (svc w') = processor (svc w).
Proof.
  unfold disconnect.
  destruct (releaseCapture_frame w) as (Hs2 & Hc2 & _).
  destruct (closeIfPresent _ _) as [w3|] eqn:E3; [|done].
  destruct (closeIfPresent_frame _ _ _ E3) as (Hs3 & _ & Hc3).
  pose proof (closeIfPresent_trace _ _ _ E3) as Ht3.
  destruct (closeIfPresent _ w3) as [w4|] eqn:E4; [|done].
  destruct (closeIfPresent_frame _ _ _ E4) as (Hs4 & _ & Hc4).
  pose proof (closeIfPresent_trace _ _ _ E4) as Ht4.
  destruct (cancelIfPresent_frame (animationFrameId (svc w4)) w4)
    as (Hs5 & Hc5 & _).
  destruct (cancelIfPresent_trace (animationFrameId (svc w4)) w4)
    as (t5 & Ht5 & Hq5).
  intros [= <-]. cbn -[cancelIfPresent].
  rewrite Hc5, Hc4, Hc3, Ht5, Ht4, Ht3, Hs5, Hs4, Hs3, !Hs2, Hc2.
  assert (Hrel : trace (releaseCapture w)
            = trace w ++ match processor (svc w) with
                         | Some p => [ProcessorDisconnect p] | None => [] end
                      ++ match activeStream (svc w) with
                         | Some s => [TrackStop s] | None => [] end).
  { unfold releaseCapture.
    destruct (processor (svc w)); cbn; destruct (activeStream (svc w)); cbn;
      by rewrite <- ?app_assoc, ?app_nil_r. }
  rewrite Hrel. split_and!.
  - intros c [Hi|Ho].
    + rewrite Hi. split.
      * destruct (outputAudioContext (svc w));
          rewrite ?elem_of_union, !elem_of_singleton; auto.
      * rewrite !elem_of_app. do 2 left. right. by apply list_elem_of_singleton.
    + rewrite Ho. split.
      * rewrite elem_of_union, elem_of_singleton. auto.
      * rewrite !elem_of_app. left. right. by apply list_elem_of_singleton.
  - intros s ->. rewrite !elem_of_app. do 3 left. right. right.
    by apply list_elem_of_singleton.
  - intros p ->. rewrite !elem_of_app. do 3 left. right. left.
    by apply list_elem_of_singleton.
  - destruct (quiet_ids t5 Hq5) as (_ & Hp5 & _).
    rewrite !stoppedIds_app, Hp5.
    destruct (processor (svc w)), (activeStream (svc w)),
      (inputAudioContext (svc w)), (outputAudioContext (svc w)); cbn;
      by rewrite ?app_nil_r.
  - done.
Qed.


End Contexts.

(** ** After teardown, and stray events *)

Lemma world_eq (w w' : World) :
  svc w = svc w' → closed w = closed w' → frames w = frames w' →
  nextId w = nextId w' → trace w = trace w' → w = w'.
Proof. destruct w, w'; cbn. by intros -> -> -> -> ->. Qed.

Lemma setPlayback_same (s : Service) :
  setPlayback (nextStartTime s) (sources s) s = s.
Proof. by destruct s. Qed.

Section Inert.

Variable audioDuration : string -> Q.
Local Abbreviation handle := (handleServerMessage audioDuration).
Local Abbreviation perform' := (perform audioDuration).
Local Abbreviation run' := (run audioDuration).

(** With both context references cleared, nothing but [connect] touches
    capture or playback. *)
Lemma torn_down_perform (a : Action) (w : World) :
  isConnectStart a = false →
  inputAudioContext (svc w) = None → outputAudioContext (svc w) = None →
  inputAudioContext (svc (perform' a w)) = None
  ∧ outputAudioContext (svc (perform' a w)) = None
  ∧ processor (svc (perform' a w)) = processor (svc w)
  ∧ nextStartTime (svc (perform' a w)) = nextStartTime (svc w)
  ∧ sources (svc (perform' a w)) ⊆ sources (svc w)
  ∧ startedIds (trace (perform' a w)) = startedIds (trace w)
  ∧ stoppedIds (trace (perform' a w)) = stoppedIds (trace w).
Proof.
  intros Ha Hi Ho.
  destruct (isServerMessage a) eqn:Hm.
  - destruct a as [| | | | |m clock| | |]; try discriminate Hm. cbn [perform].
    assert (Hdead : ¬ live w).
    { intros [[c Hc] _]. congruence. }
    rewrite (handle_detached _ _ _ _ Hdead). cbn.
    destruct (quiet_ids _ (toolPhase_not_playback m w)) as (Hs & Hp & _).
    rewrite startedIds_app, stoppedIds_app, Hs, Hp, !app_nil_r.
    by split_and!.
  - destruct (perform_quiet audioDuration a w Hm)
      as (turn & Htr & Hq & Ht & Hsrc & _).
    destruct (quiet_ids _ Hq) as (Hs & Hp & _).
    rewrite Htr, startedIds_app, stoppedIds_app, Hs, Hp, !app_nil_r.
    assert (Hctx : inputAudioContext (svc (perform' a w)) = None
                   ∧ outputAudioContext (svc (perform' a w)) = None
                   ∧ processor (svc (perform' a w)) = processor (svc w)).
    { destruct a as [i o sp| | | | |m clock|s|h sp|]; try discriminate Ha;
        try discriminate Hm; cbn [perform].
      - by simpl.
      - unfold onopen, startInputStreaming. rewrite Hi. by simpl.
      - by simpl.
      - by simpl.
      - by simpl.
      - unfold animationFrame. case_decide; [|done].
        unfold updateVisualizer. simpl. by destruct (analyser (svc w)).
      - unfold disconnect.
        destruct (releaseCapture_frame w) as (Hs2 & _).
        rewrite Hs2, Hi. cbn [closeIfPresent]. rewrite Hs2, Ho.
        cbn [closeIfPresent fst].
        destruct (cancelIfPresent_frame
                    (animationFrameId (svc (releaseCapture w))) (releaseCapture w))
          as (Hs5 & _).
        cbn -[cancelIfPresent]. by rewrite Hs5, Hs2. }
    destruct Hctx as (? & ? & ?). by split_and!.
Qed.

(** X8: once [disconnect] has returned, and until [connect] is called
    again, the instance stays inert whatever arrives (late microphone
    grant, session open, messages, ended events, frames, further
    disconnects): both contexts stay cleared, no capture processor is built,
    no source is created, started or stopped, and the cursor stays put. *)
Theorem inert_after_disconnect (w w' : World) (later : list Action) :
  disconnect w = (w', Returned) →
  Forall (fun a => isConnectStart a = false) later →
  inputAudioContext (svc (run' later w')) = None
  ∧ outputAudioContext (svc (run' later w')) = None
  ∧ processor (svc (run' later w')) = processor (svc w)
  ∧ nextStartTime (svc (run' later w')) = nextStartTime (svc w)
  ∧ sources (svc (run' later w')) = ∅
  ∧ startedIds (trace (run' later w')) = startedIds (trace w)
  ∧ stoppedIds (trace (run' later w')) = stoppedIds (trace w).
Proof.
  intros Hd Hlater.
  destruct (disconnect_returned w w' Hd) as (Hi & Ho & _ & Hsrc & Ht & _).
  destruct (disconnect_releases w w' Hd) as (_ & _ & _ & Hstop & Hproc).
  destruct (disconnect_trace w) as (turn & Htr & Hq). rewrite Hd in Htr.
  cbn [fst] in Htr.
  destruct (quiet_ids _ Hq) as (Hs0 & _ & _).
  assert (Hstart : startedIds (trace w') = startedIds (trace w))
    by (by rewrite Htr, startedIds_app, Hs0, app_nil_r).
  rewrite <- Hproc, <- Ht, <- Hstart, <- Hstop.
  clear Hd Hproc Ht Hstart Hstop Htr Hq Hs0 turn w.
  revert w' Hi Ho Hsrc.
  induction Hlater as [|a later Ha _ IH]; intros w Hi Ho Hsrc; [done|].
  rewrite run_cons.
  destruct (torn_down_perform a w Ha Hi Ho) as (Hi' & Ho' & Hp & Ht & Hs & Hst & Hsp).
  assert (Hsrc' : sources (svc (perform' a w)) = ∅).
  { apply elem_of_equiv_empty_L. intros x Hx. apply Hs in Hx.
    rewrite Hsrc in Hx. by apply not_elem_of_empty in Hx. }
  destruct (IH _ Hi' Ho' Hsrc') as (? & ? & -> & -> & ? & -> & ->).
  by split_and!.
Qed.

(** X9: the ['ended'] listener of a source that is not in [sources] (it
    was flushed by an interruption or by [disconnect], or its event comes
    twice) changes nothing; in particular after an interruption no late
    ['ended'] event has any effect. *)
Theorem ended_of_absent_source_is_noop
    (w : World) (s : nat) (m : LiveServerMessage) (clock : Q) :
  (s ∉ sources (svc w) → onended s w = w)
  ∧ onended s (onended s w) = onended s w
  ∧ (live w → isInterrupted m = true →
     onended s (handle m clock w) = handle m clock w).
Proof.
  assert (Hno : ∀ u, s ∉ sources (svc u) → onended s u = u).
  { intros u Hs. unfold onended. apply world_eq; try done. cbn.
    rewrite difference_disjoint_L; [apply setPlayback_same|].
    apply disjoint_singleton_r. done. }
  split_and!.
  - apply Hno.
  - apply Hno. cbn. intros Hin. apply elem_of_difference in Hin as [_ Hn].
    apply Hn. by apply elem_of_singleton.
  - intros Hl Hi. apply Hno. rewrite (handle_interrupted _ _ _ _ Hl Hi). cbn.
    apply not_elem_of_empty.
Qed.

End Inert.

(** ** What of a message the handler looks at *)

Lemma base64Audio_firstPart (m : LiveServerMessage) :
  base64Audio m = firstPartData m.
Proof.
  unfold base64Audio, firstPartData, firstPart.
  destruct (serverContent m) as [sc|]; [|done]. cbn.
  destruct (modelTurn sc) as [mt|]; [|done]. cbn.
  destruct (parts mt) as [ps|]; [|done]. cbn.
  by destruct (head ps).
Qed.

(** X10: of the model turn the handler reads the first part only: two
    messages with the same tool calls, the same interruption flag and the
    same first part are handled alike, whatever the further parts hold;
    and a first part without data, or with the empty string as data, makes
    an uninterrupted message start no source. *)
Theorem only_first_part_is_played
    (audioDuration : string -> Q) (m m' : LiveServerMessage) (clock : Q)
    (w : World) :
  (toolCall m = toolCall m' → isInterrupted m = isInterrupted m' →
   firstPart m = firstPart m' →
   handleServerMessage audioDuration m clock w
   = handleServerMessage audioDuration m' clock w)
  ∧ (isInterrupted m = false →
     firstPartData m = None ∨ firstPartData m = Some "" →
     startedIds (trace (handleServerMessage audioDuration m clock w))
     = startedIds (trace w)
     ∧ svc (handleServerMessage audioDuration m clock w) = svc w).
Proof.
  split.
  - intros Ht Hi Hf. rewrite !handle_unfold. cbv zeta.
    unfold toolPhase, audioPayload. rewrite !base64Audio_firstPart.
    unfold firstPartData. by rewrite Ht, Hi, Hf.
  - intros Hi Hp.
    assert (Hnone : audioPayload m = None).
    { unfold audioPayload. rewrite base64Audio_firstPart.
      by destruct Hp as [-> | ->]. }
    rewrite (handle_quiet _ _ _ _ Hi Hnone). cbn.
    destruct (quiet_ids _ (toolPhase_not_playback m w)) as (Hs & _ & _).
    by rewrite startedIds_app, Hs, app_nil_r.
Qed.

(** ** The order of the effects of one message *)

Lemma toolPhase_send (m : LiveServerMessage) (w : World) :
  (toolPhase m w).2
  = match sessionPromise (svc w) with
    | Some _ => SendToolResponse <$> batchOf (callsOf m)
    | None => []
    end.
Proof.
  unfold toolPhase, callsOf, batchOf.
  destruct (toolCall m) as [tc|]; [|by destruct (sessionPromise (svc w))].
  rewrite toolCallLoop_spec. cbn [snd]. unfold toolResponseSend.
  destruct (acknowledge <$> recognised (functionCalls tc));
    by destruct (sessionPromise (svc w)).
Qed.


(** ** The further theorems on the sample runs *)

Lemma sampleDuration_nonneg (payload : string) : (0 <= sampleDuration payload)%Q.
Proof.
  unfold sampleDuration, Qle, Qdiv, Qmult, Qinv, inject_Z. cbn. lia.
Defined.

Lemma scheduled_windows_disjoint_sample :
  (∀ payload, (0 <= sampleDuration payload)%Q)
  ∧ reachable sampleDuration playingWorld
  ∧ (∀ s t d, s ∈ sources (svc playingWorld) →
       SourceStart s t d ∈ trace playingWorld →
       (t + d <= nextStartTime (svc playingWorld))%Q)
  ∧ (∀ s1 t1 d1 s2 t2 d2,
       s1 ∈ sources (svc playingWorld) → s2 ∈ sources (svc playingWorld) →
       s1 ≠ s2 →
       SourceStart s1 t1 d1 ∈ trace playingWorld →
       SourceStart s2 t2 d2 ∈ trace playingWorld →
       (t1 + d1 <= t2)%Q ∨ (t2 + d2 <= t1)%Q)
  ∧ (0 <= nextStartTime (svc playingWorld))%Q.
Proof.
  split; [exact sampleDuration_nonneg|]. split; [exact playingWorld_reachable|].
  exact (scheduled_windows_disjoint sampleDuration sampleDuration_nonneg
           playingWorld playingWorld_reachable).
Defined.

Lemma sources_started_not_stopped_sample :
  reachable sampleDuration playingWorld
  ∧ (∀ s, s ∈ sources (svc playingWorld) →
       s ∈ startedIds (trace playingWorld)
       ∧ s ∉ stoppedIds (trace playingWorld))
  ∧ NoDup (startedIds (trace playingWorld))
  ∧ NoDup (stoppedIds (trace playingWorld))
  ∧ (∀ s, s ∈ stoppedIds (trace playingWorld) →
       s ∈ startedIds (trace playingWorld)).
Proof.
  split; [exact playingWorld_reachable|].
  exact (sources_started_not_stopped sampleDuration playingWorld
           playingWorld_reachable).
Defined.

Lemma sampleAftermath_no_connect :
  Forall (fun a => isConnectStart a = false) sampleAftermath.
Proof. repeat constructor. Defined.

Lemma visualizer_stops_after_disconnect_sample :
  let w1 := run sampleDuration (sampleSession ++ [Disconnect]) initWorld in
  (length (List.filter isConnectStart sampleSession) ≤ 1)%nat
  ∧ Forall (fun a => isConnectStart a = false) sampleAftermath
  ∧ frames w1 = ∅
  ∧ frames (run sampleDuration sampleAftermath w1) = ∅
  ∧ amplitudes (trace (run sampleDuration sampleAftermath w1))
    = amplitudes (trace w1).
Proof.
  intros w1.
  assert (Hlen : (length (List.filter isConnectStart sampleSession) ≤ 1)%nat)
    by (vm_compute; lia).
  split; [exact Hlen|]. split; [exact sampleAftermath_no_connect|].
  exact (visualizer_stops_after_disconnect sampleDuration sampleSession
           sampleAftermath Hlen sampleAftermath_no_connect).
Defined.





Lemma inert_after_disconnect_sample :
  let w' := (disconnect playingWorld).1 in
  disconnect playingWorld = (w', Returned)
  ∧ Forall (fun a => isConnectStart a = false) sampleAftermath
  ∧ inputAudioContext (svc (run sampleDuration sampleAftermath w')) = None
  ∧ outputAudioContext (svc (run sampleDuration sampleAftermath w')) = None
  ∧ processor (svc (run sampleDuration sampleAftermath w'))
    = processor (svc playingWorld)
  ∧ nextStartTime (svc (run sampleDuration sampleAftermath w'))
    = nextStartTime (svc playingWorld)
  ∧ sources (svc (run sampleDuration sampleAftermath w')) = ∅
  ∧ startedIds (trace (run sampleDuration sampleAftermath w'))
    = startedIds (trace playingWorld)
  ∧ stoppedIds (trace (run sampleDuration sampleAftermath w'))
    = stoppedIds (trace playingWorld).
Proof.
  intros w'.
  assert (Hd : disconnect playingWorld = (w', Returned)) by (by vm_compute).
  split; [exact Hd|]. split; [exact sampleAftermath_no_connect|].
  exact (inert_after_disconnect sampleDuration playingWorld w' sampleAftermath
           Hd sampleAftermath_no_connect).
Defined.

(** ** The arc reactor and the console *)

Lemma withinRanges_byte (volume : Q) :
  amplitudeInRange volume → ArcReactor.withinRanges volume.
Proof.
  intros [H0 H255].
  unfold ArcReactor.withinRanges, ArcReactor.colorAlpha, ArcReactor.scale,
    ArcReactor.coreOpacity, ArcReactor.shadowBlur, ArcReactor.glow.
  unfold Qdiv.
  assert (E255 : (/ 255 == 1 # 255)%Q) by reflexivity.
  assert (E400 : (/ 400 == 1 # 400)%Q) by reflexivity.
  rewrite !E255, !E400.
  split_and!; lra.
Qed.



Section ConsoleFacts.

Import Console.

Variable audioDuration : string -> Q.
Local Abbreviation perform' := (perform audioDuration).
Local Abbreviation run' := (run audioDuration).

(** An action appends its turn to the trace. *)
Lemma perform_extends (a : Action) (w : World) :
  trace (perform' a w) = trace w ++ turnTrace audioDuration a w.
Proof.
  destruct (isServerMessage a) eqn:Hm.
  - destruct a; try discriminate Hm. apply turnTrace_handle.
  - destruct (perform_quiet audioDuration a w Hm) as (turn & Ht & _).
    unfold turnTrace. rewrite Ht. by rewrite drop_app_length.
Qed.

Lemma reachable_amplitudeOk (w : World) :
  reachable audioDuration w → Forall amplitudeOk (trace w).
Proof.
  revert w.
  apply (reachable_ind audioDuration (fun w => Forall amplitudeOk (trace w)));
    [constructor|].
  intros w' a _. apply perform_amplitudeOk.
Qed.

Lemma turnTrace_amplitudeOk (a : Action) (w : World) :
  reachable audioDuration w → Forall amplitudeOk (turnTrace audioDuration a w).
Proof.
  intros Hr. unfold turnTrace. apply Forall_drop.
  by apply perform_amplitudeOk, reachable_amplitudeOk.
Qed.

Lemma connectedOnce_reachable (w : World) :
  connectedOnce audioDuration w → reachable audioDuration w.
Proof. intros (acts & -> & _). by exists acts. Qed.

Lemma connectedOnce_perform (a : Action) (w : World) :
  isConnectStart a = false →
  connectedOnce audioDuration w → connectedOnce audioDuration (perform' a w).
Proof.
  intros Ha (acts & -> & Hlen). exists (acts ++ [a]).
  split; [by rewrite run_snoc|].
  rewrite List.filter_app. cbn. rewrite Ha. cbn. by rewrite app_nil_r.
Qed.

(** *** What the handlers leave alone *)

Lemma handleSystemCommand_frame (command : JsValue) (st : App) :
  volume (handleSystemCommand command st) = volume st
  ∧ instances (handleSystemCommand command st) = instances st.
Proof. unfold handleSystemCommand. by repeat case_decide. Qed.

Lemma callback_instances (detail : option string) (e : Event) (st : App) :
  instances (callback detail e st) = instances st.
Proof.
  destruct e; try done. cbn. apply handleSystemCommand_frame.
Qed.

Lemma callback_volume (detail : option string) (e : Event) (st : App) :
  volume (callback detail e st)
  = match e with OnAudioData v => v | _ => volume st end.
Proof.
  destruct e; try done. cbn. apply handleSystemCommand_frame.
Qed.

Lemma callbacks_instances (detail : option string) (turn : list Event)
    (st : App) :
  instances (callbacks detail turn st) = instances st.
Proof.
  revert st. induction turn as [|e turn IH]; intros st; [done|].
  cbn. fold (callbacks detail turn (callback detail e st)).
  by rewrite IH, callback_instances.
Qed.

(** The volume after a turn is the last amplitude the turn reported. *)
Lemma callbacks_volume (detail : option string) (turn : list Event)
    (st : App) :
  volume (callbacks detail turn st)
  = default (volume st) (last (amplitudes turn)).
Proof.
  revert st. induction turn as [|e turn IH]; intros st; [done|].
  cbn [callbacks foldl]. fold (callbacks detail turn (callback detail e st)).
  rewrite IH, callback_volume.
  destruct e; try done. cbn [amplitudes omap list_omap].
  change (omap _ turn) with (amplitudes turn).
  rewrite last_cons. by destruct (last (amplitudes turn)).
Qed.

Lemma amplitudes_ok (l : list Event) :
  Forall amplitudeOk l → Forall amplitudeInRange (amplitudes l).
Proof.
  induction 1 as [|e l He _ IH]; [constructor|].
  destruct e; try done. cbn. by constructor.
Qed.

Lemma callbacks_volume_range (detail : option string) (turn : list Event)
    (st : App) :
  Forall amplitudeOk turn → amplitudeInRange (volume st) →
  amplitudeInRange (volume (callbacks detail turn st)).
Proof.
  intros Hturn Hst. rewrite callbacks_volume.
  destruct (last (amplitudes turn)) as [v|] eqn:E; [|done]. cbn.
  apply amplitudes_ok in Hturn.
  apply last_Some_elem_of in E.
  by apply (proj1 (Forall_forall _ _) Hturn).
Qed.

Lemma zero_in_range : amplitudeInRange 0%Q.
Proof. split; by vm_compute. Qed.

Lemma handleDisconnect_instances (st : App) :
  instances (handleDisconnect st)
  = match instances st with
    | [] => []
    | w :: older => (disconnect w).1 :: older
    end.
Proof.
  unfold handleDisconnect. destruct (instances st) as [|w older] eqn:E; [done|].
  by destruct (disconnect w).2.
Qed.

Lemma handleDisconnect_volume (st : App) :
  volume (handleDisconnect st) = volume st ∨ volume (handleDisconnect st) = 0%Q.
Proof.
  unfold handleDisconnect. destruct (instances st) as [|w older]; [by left|].
  destruct (disconnect w).2; [by right|by left].
Qed.

Lemma handleDisconnect_wellFormed (st : App) :
  wellFormed audioDuration st → wellFormed audioDuration (handleDisconnect st).
Proof.
  intros [Hv Hi]. split.
  - destruct (handleDisconnect_volume st) as [->| ->]; [done|apply zero_in_range].
  - rewrite handleDisconnect_instances.
    destruct (instances st) as [|w older]; [done|].
    apply Forall_cons in Hi as [Hw Ho]. constructor; [|done].
    by apply (connectedOnce_perform Disconnect).
Qed.

Lemma timerCallback_wellFormed (cb : TimerCallback) (st : App) :
  wellFormed audioDuration st → wellFormed audioDuration (timerCallback cb st).
Proof.
  destruct cb; [by intros []|by intros []|apply handleDisconnect_wellFormed].
Qed.

Lemma step_wellFormed (i : Input) (st : App) :
  wellFormed audioDuration st → wellFormed audioDuration (step audioDuration i st).
Proof.
  intros Hst. pose proof Hst as [Hv Hi].
  destruct i as [i o sp reason|reason| |v|n|k a detail]; cbn [step].
  - destruct (canConnect st); [|done]. unfold handleConnect.
    assert (Hw : connectedOnce audioDuration (connectStart i o sp initWorld)).
    { by exists [ConnectStart i o sp]. }
    assert (Hok : wellFormed audioDuration
      (callbacks None (trace (connectStart i o sp initWorld))
        (setInstances
           (connectStart i o sp initWorld ::
            instances
              (addLog
                 ("Initiating secure connection to JARVIS core [VOICE: "
                  +:+ toUpperCase (selectedVoice st) +:+ "]...") system
                 (setConnectionState CONNECTING st)))
           (addLog
              ("Initiating secure connection to JARVIS core [VOICE: "
               +:+ toUpperCase (selectedVoice st) +:+ "]...") system
              (setConnectionState CONNECTING st))))).
    { split.
      - apply callbacks_volume_range; [|done].
        by apply reachable_amplitudeOk, connectedOnce_reachable.
      - rewrite callbacks_instances. by constructor. }
    destruct (i && o); [done|]. by destruct Hok.
  - done.
  - destruct (canConnect st); [done|]. by apply handleDisconnect_wellFormed.
  - by destruct (canConnect st).
  - unfold fireTimer. destruct (timers st !! n) as [[d cb]|]; [|done].
    by apply timerCallback_wellFormed.
  - unfold instanceEvent. destruct (instances st !! k) as [w|] eqn:Hk; [|done].
    destruct (external a) eqn:Ha; [|done].
    assert (Hw : connectedOnce audioDuration w).
    { by apply (proj1 (Forall_lookup _ _) Hi k w). }
    split.
    + apply callbacks_volume_range; [|done].
      by apply turnTrace_amplitudeOk, connectedOnce_reachable.
    + rewrite callbacks_instances. cbn. apply Forall_insert; [done|].
      apply connectedOnce_perform; [by destruct a|done].
Qed.

Lemma runApp_snoc (inputs : list Input) (i : Input) (st : App) :
  runApp audioDuration (inputs ++ [i]) st
  = step audioDuration i (runApp audioDuration inputs st).
Proof. unfold runApp. by rewrite foldl_app. Qed.

Lemma reachableApp_wellFormed (st : App) :
  reachableApp audioDuration st → wellFormed audioDuration st.
Proof.
  intros [inputs ->].
  induction inputs as [|i inputs IH] using rev_ind.
  - split; [apply zero_in_range|constructor].
  - rewrite runApp_snoc. by apply step_wellFormed.
Qed.

(** X13: in every state the console can reach, by clicks, timers and events
    of any of its service instances in any order, the volume it holds is a
    byte mean in [0, 255], so that the arc reactor is always drawn with
    values inside their ranges. *)
Theorem console_volume_in_range (st : App) :
  reachableApp audioDuration st →
  amplitudeInRange (volume st) ∧ ArcReactor.withinRanges (volume st).
Proof.
  intros Hr. destruct (reachableApp_wellFormed st Hr) as [Hv _].
  split; [done|by apply withinRanges_byte].
Qed.

(** *** Commands *)

Lemma handleSystemCommand_timers (command : JsValue) (st : App) :
  isSystemCommand command = true →
  (length (timers st) < length (timers (handleSystemCommand command st)))%nat.
Proof.
  intros Hc. unfold handleSystemCommand.
  repeat case_decide; cbn; rewrite ?length_app; cbn; try lia.
  exfalso. destruct command as [| | | |s]; try discriminate Hc.
  cbn in Hc. repeat case_bool_decide; try discriminate Hc; congruence.
Qed.

Lemma handleSystemCommand_other (command : JsValue) (st : App) :
  isSystemCommand command = false → handleSystemCommand command st = st.
Proof.
  intros Hc. unfold handleSystemCommand.
  repeat case_decide; subst; try discriminate Hc. done.
Qed.

(** X14: a tool-call request changes the console exactly when it names the
    system-command tool and carries one of the three commands of
    [SystemCommand]; any other request, also one the service acknowledges,
    leaves logs, state and timers as they were. *)
Theorem request_changes_console_iff
    (detail : option string) (fc : FunctionCall) (st : App) :
  callbacks detail (toolCallStep fc).1 st ≠ st
  ↔ fc_name fc = Some toolName ∧ isSystemCommand (commandOf fc) = true.
Proof.
  unfold toolCallStep. case_bool_decide as Hn; cbn.
  - destruct (isSystemCommand (commandOf fc)) eqn:Hc.
    + split; [done|]. intros _ Heq.
      pose proof (handleSystemCommand_timers _ st Hc) as Hlt.
      rewrite Heq in Hlt. lia.
    + rewrite handleSystemCommand_other by done. split; [done|]. by intros [_ ?].
  - split; [done|]. by intros [? _].
Qed.

Lemma callbacks_app (detail : option string) (l k : list Event) (st : App) :
  callbacks detail (l ++ k) st = callbacks detail k (callbacks detail l st).
Proof. unfold callbacks. by rewrite foldl_app. Qed.

Lemma callbacks_inert (detail : option string) (l : list Event) (st : App) :
  Forall (fun e => isCallback e = false) l → callbacks detail l st = st.
Proof.
  induction 1 as [|e l He _ IH]; [done|].
  cbn. fold (callbacks detail l (callback detail e st)).
  destruct e; try discriminate He; exact IH.
Qed.

Lemma playback_inert (l : list Event) :
  Forall playbackEvent l → Forall (fun e => isCallback e = false) l.
Proof. intros H. eapply Forall_impl; [exact H|]. by intros []. Qed.

Lemma callbacks_commands (detail : option string) (fcs : list FunctionCall)
    (st : App) :
  callbacks detail ((fun fc => OnCommand (commandOf fc)) <$> fcs) st
  = runCommands (commandOf <$> fcs) st.
Proof.
  revert st. induction fcs as [|fc fcs IH]; intros st; [done|].
  cbn. apply IH.
Qed.

Lemma message_callbacks (detail : option string) (m : LiveServerMessage)
    (clock : Q) (w : World) (st : App) :
  callbacks detail (turnTrace audioDuration (ServerMessage m clock) w) st
  = runCommands (commandOf <$> recognised (callsOf m)) st.
Proof.
  destruct (handle_trace audioDuration m clock w) as (mid & post & Ht & Hm & Hp).
  assert (Hturn : turnTrace audioDuration (ServerMessage m clock) w
                  = (toolPhase m w).1 ++ mid ++ (toolPhase m w).2 ++ post).
  { unfold turnTrace. cbn [perform]. rewrite Ht. by rewrite drop_app_length. }
  rewrite Hturn, !callbacks_app.
  rewrite (callbacks_inert detail post) by (by apply playback_inert).
  rewrite (callbacks_inert detail (toolPhase m w).2).
  2:{ rewrite toolPhase_send. destruct (sessionPromise (svc w)); [|done].
      apply Forall_fmap, Forall_true. done. }
  rewrite (callbacks_inert detail mid) by (by apply playback_inert).
  rewrite toolPhase_calls. apply callbacks_commands.
Qed.


(** *** Terminating *)

Lemma terminate_facts (st : App) (w : World) (older : list World) :
  wellFormed audioDuration st → instances st = w :: older →
  ∃ w', disconnect w = (w', Returned)
    ∧ handleDisconnect st
      = addLog "Disengaging protocols. Goodbye, Sir." system
          (setVolume 0
             (setConnectionState DISCONNECTED
                (setInstances (w' :: older) st)))
    ∧ reachable audioDuration w'
    ∧ frames w' = ∅.
Proof.
  intros [_ Hi] Hinst. rewrite Hinst in Hi.
  apply Forall_cons in Hi as [Hw _].
  pose proof (connectedOnce_reachable w Hw) as Hr.
  pose proof (reachable_contextsOpen audioDuration w Hr) as Hctx.
  destruct (disconnect_returns w Hctx) as (w' & Hd & _).
  exists w'. split; [done|]. split_and!.
  - unfold handleDisconnect. rewrite Hinst. cbn zeta. by rewrite Hd.
  - replace w' with (perform' Disconnect w) by (cbn; by rewrite Hd).
    by apply reachable_perform.
  - destruct Hw as (acts & -> & Hlen).
    pose proof (disconnect_ends_loop _ Hctx
                  (proj1 (single_connect_oneLoop audioDuration acts Hlen))) as Hf.
    by rewrite Hd in Hf.
Qed.


Lemma handleDisconnect_quiescent (st : App) :
  quiescent audioDuration st → quiescent audioDuration (handleDisconnect st).
Proof.
  intros (Hv & w & older & Hinst & Hr & Hf). split.
  - by destruct (handleDisconnect_volume st) as [->| ->].
  - exists (disconnect w).1, older. split_and!.
    + by rewrite handleDisconnect_instances, Hinst.
    + by apply (reachable_perform audioDuration Disconnect).
    + by apply (idle_loop_perform audioDuration Disconnect w eq_refl
                  (reachable_contextsOpen audioDuration w Hr) Hf).
Qed.

Lemma step_quiescent (i : Input) (st : App) :
  onCurrent i = true →
  quiescent audioDuration st → quiescent audioDuration (step audioDuration i st).
Proof.
  intros Hi Hq. pose proof Hq as (Hv & w & older & Hinst & Hr & Hf).
  destruct i as [i o sp reason|reason| |v|n|k a detail]; try discriminate Hi;
    cbn [step].
  - split; [done|]. by exists w, older.
  - destruct (canConnect st); [done|]. by apply handleDisconnect_quiescent.
  - destruct (canConnect st); [|done]. split; [done|]. by exists w, older.
  - unfold fireTimer. destruct (timers st !! n) as [[d cb]|]; [|done].
    destruct cb; cbn [timerCallback].
    + split; [done|]. by exists w, older.
    + split; [done|]. by exists w, older.
    + apply handleDisconnect_quiescent. split; [done|]. by exists w, older.
  - cbn in Hi. apply bool_decide_eq_true in Hi as ->.
    unfold instanceEvent. rewrite Hinst. cbn [lookup list_lookup].
    destruct (external a) eqn:Ha; [|done].
    assert (Hc : isConnectStart a = false) by (by destruct a).
    destruct (idle_loop_perform audioDuration a w Hc
                (reachable_contextsOpen audioDuration w Hr) Hf) as [Hf' Ham].
    split.
    + rewrite callbacks_volume. cbn [volume setInstances].
      rewrite perform_extends, amplitudes_app in Ham.
      assert (Hnone : amplitudes (turnTrace audioDuration a w) = []).
      { apply (f_equal length) in Ham. rewrite length_app in Ham.
        apply nil_length_inv. lia. }
      by rewrite Hnone.
    + exists (perform' a w), older. split_and!.
      * by rewrite callbacks_instances.
      * by apply reachable_perform.
      * done.
Qed.

(** X17: once [handleDisconnect] has run in a reachable state, the volume
    stays 0 and the current instance requests no animation frame, whatever
    timers fire, whatever still arrives for that instance and however often
    the terminate handler runs again, until the connect button is clicked
    or an older instance reports. *)
Theorem silent_after_terminate (st : App) (inputs : list Input) :
  reachableApp audioDuration st → instances st ≠ [] →
  Forall (fun i => onCurrent i = true) inputs →
  quiescent audioDuration (runApp audioDuration inputs (handleDisconnect st)).
Proof.
  intros Hr Hne Hin.
  destruct (instances st) as [|w older] eqn:Hinst; [done|].
  destruct (terminate_facts st w older (reachableApp_wellFormed st Hr) Hinst)
    as (w' & _ & -> & Hr' & Hf).
  induction inputs as [|i inputs IH] using rev_ind.
  - split; [done|]. by exists w', older.
  - apply Forall_app in Hin as [Hin Hi]. apply Forall_inv in Hi.
    rewrite runApp_snoc. apply step_quiescent; [done|]. by apply IH.
Qed.

(** X18: after the console has terminated, a [restart] request that still
    arrives on the terminated instance puts the console in CONNECTING with
    an empty log, and the timer it sets then marks it CONNECTED, while the
    instance keeps having no audio context. *)
Theorem late_restart_shows_connected
    (st : App) (w : World) (older : list World)
    (m : LiveServerMessage) (clock : Q) :
  reachableApp audioDuration st → instances st = w :: older →
  commandOf <$> recognised (callsOf m) = [JsStr "restart"] →
  let st0 := handleDisconnect st in
  let st1 := instanceEvent audioDuration 0 (ServerMessage m clock) None st0 in
  let st2 := fireTimer (length (timers st0)) st1 in
  connectionState st0 = DISCONNECTED
  ∧ connectionState st1 = CONNECTING ∧ logs st1 = []
  ∧ connectionState st2 = CONNECTED
  ∧ ∃ w', instances st2 = w' :: older
      ∧ inputAudioContext (svc w') = None
      ∧ outputAudioContext (svc w') = None.
Proof.
  intros Hr Hinst Hm. cbn zeta.
  destruct (terminate_facts st w older (reachableApp_wellFormed st Hr) Hinst)
    as (w' & Hd & -> & _).
  destruct (disconnect_returned w w' Hd) as (Hi & Ho & _).
  split; [done|].
  unfold instanceEvent.
  cbn [instances addLog setLogs setVolume setConnectionState setInstances
       lookup list_lookup external].
  rewrite message_callbacks, Hm.
  assert (Hc : ∀ st', runCommands [JsStr "restart"] st'
    = setTimeout Rebooted 1500
        (setLogs []
           (setConnectionState CONNECTING
              (addLog "INITIATING REBOOT SEQUENCE..." system st')))).
  { intros st'. unfold runCommands. cbn [foldl]. unfold handleSystemCommand.
    repeat case_decide; try discriminate; done. }
  rewrite Hc. split; [done|]. split; [done|].
  unfold fireTimer. cbn [timers setTimeout setTimers setLogs setConnectionState
    addLog setInstances setVolume].
  rewrite list_lookup_middle by done. cbn.
  split; [done|].
  exists (handleServerMessage audioDuration m clock w').
  split; [done|].
  destruct (handle_frame audioDuration m clock w') as (-> & -> & _). done.
Qed.

(** *** The types of the log entries *)

Lemma addLog_typed (text : string) (ty : LogType) (st : App) :
  ty ≠ user → logsTyped st → logsTyped (addLog text ty st).
Proof.
  intros Hty [Hl Ht]. split; [|done]. cbn.
  apply Forall_app. split; [done|]. by repeat constructor.
Qed.

Lemma setTimeout_typed (cb : TimerCallback) (delay : nat) (st : App) :
  (∀ text ty, cb = LogLater text ty → ty ≠ user) →
  logsTyped st → logsTyped (setTimeout cb delay st).
Proof.
  intros Hcb [Hl Ht]. split; [done|]. cbn.
  apply Forall_app. split; [done|]. by repeat constructor.
Qed.

Lemma handleDisconnect_typed (st : App) :
  logsTyped st → logsTyped (handleDisconnect st).
Proof.
  intros Hst. unfold handleDisconnect.
  destruct (instances st) as [|w older]; [done|]. cbn zeta.
  destruct (disconnect w).2.
  - apply addLog_typed; [done|]. by destruct Hst.
  - by destruct Hst.
Qed.

Lemma handleSystemCommand_typed (command : JsValue) (st : App) :
  logsTyped st → logsTyped (handleSystemCommand command st).
Proof.
  intros Hst. unfold handleSystemCommand. repeat case_decide; [| | |done].
  - repeat (apply setTimeout_typed; [by intros ? ? [= _ <-]|]).
    by apply addLog_typed.
  - apply setTimeout_typed; [done|].
    destruct (addLog_typed "INITIATING REBOOT SEQUENCE..." system st) as [_ Ht];
      [done|done|].
    split; [constructor|exact Ht].
  - apply setTimeout_typed; [done|]. by apply addLog_typed.
Qed.

Lemma callback_typed (detail : option string) (e : Event) (st : App) :
  logsTyped st → logsTyped (callback detail e st).
Proof.
  intros Hst. destruct e; cbn [callback]; try done.
  - repeat (apply addLog_typed; [done|]). by destruct Hst.
  - apply addLog_typed; [done|]. by destruct Hst.
  - apply addLog_typed; [done|]. by destruct Hst.
  - by destruct Hst.
  - by apply handleSystemCommand_typed.
Qed.

Lemma callbacks_typed (detail : option string) (turn : list Event) (st : App) :
  logsTyped st → logsTyped (callbacks detail turn st).
Proof.
  revert st. induction turn as [|e turn IH]; intros st Hst; [done|].
  cbn. apply IH. by apply callback_typed.
Qed.

Lemma connectFailed_typed (reason : string) (st : App) :
  logsTyped st → logsTyped (connectFailed reason st).
Proof. intros Hst. apply addLog_typed; [done|]. by destruct Hst. Qed.

Lemma step_typed (i : Input) (st : App) :
  logsTyped st → logsTyped (step audioDuration i st).
Proof.
  intros Hst.
  destruct i as [i o sp reason|reason| |v|n|k a detail]; cbn [step].
  - destruct (canConnect st); [|done]. unfold handleConnect. cbn zeta.
    assert (Hok : ∀ l st', logsTyped st' → logsTyped (setInstances l st'))
      by (by intros l st' []).
    destruct (i && o); [|apply connectFailed_typed];
      apply callbacks_typed, Hok, addLog_typed; try done; by destruct Hst.
  - by apply connectFailed_typed.
  - destruct (canConnect st); [done|]. by apply handleDisconnect_typed.
  - destruct (canConnect st); [|done]. by destruct Hst.
  - unfold fireTimer. destruct (timers st !! n) as [[d cb]|] eqn:Hn; [|done].
    assert (Hrest : logsTyped (setTimers (delete n (timers st)) st)).
    { destruct Hst as [Hl Ht]. split; [done|]. cbn. by apply Forall_delete. }
    destruct cb as [text ty| |]; cbn [timerCallback].
    + apply addLog_typed; [|done].
      destruct Hst as [_ Ht].
      by apply (proj1 (Forall_lookup _ _) Ht n (d, LogLater text ty) Hn text ty).
    + destruct (addLog_typed "SYSTEM REBOOTED" system _ ltac:(done) Hrest).
      by split.
    + by apply handleDisconnect_typed.
  - unfold instanceEvent. destruct (instances st !! k) as [w|]; [|done].
    destruct (external a); [|done].
    apply callbacks_typed. by destruct Hst.
Qed.

Lemma reachableApp_typed (st : App) :
  reachableApp audioDuration st → logsTyped st.
Proof.
  intros [inputs ->].
  induction inputs as [|i inputs IH] using rev_ind.
  - repeat (apply addLog_typed; [done|]). split; constructor.
  - rewrite runApp_snoc. by apply step_typed.
Qed.

(** X19: the console never writes a log entry of type [user]: in every
    reachable state each entry is of type [system] or [ai], so the log
    view's branch for user entries is never taken. *)
Theorem no_user_log_entry (st : App) :
  reachableApp audioDuration st →
  Forall (fun l => type l = system ∨ type l = ai) (logs st).
Proof.
  intros Hr. destruct (reachableApp_typed st Hr) as [Hl _].
  eapply Forall_impl; [exact Hl|]. intros [text []] Hty; cbn in *; auto.
  by destruct Hty.
Qed.

End ConsoleFacts.

Lemma ended_of_absent_source_is_noop_sample :
  let m := interruptingAudioMessage "AAAA" in
  (0%nat ∉ sources (svc playingWorld))
  ∧ live playingWorld
  ∧ isInterrupted m = true
  ∧ onended 0 playingWorld = playingWorld
  ∧ onended 0 (handleServerMessage sampleDuration m 3 playingWorld)
    = handleServerMessage sampleDuration m 3 playingWorld.
Proof.
  intros m.
  assert (Hs : 0%nat ∉ sources (svc playingWorld)).
  { intros H. vm_compute in H. discriminate H. }
  assert (Hl : live playingWorld).
  { split; vm_compute; eexists; reflexivity. }
  destruct (ended_of_absent_source_is_noop sampleDuration playingWorld 0 m 3)
    as (H1 & _ & H3).
  split; [exact Hs|]. split; [exact Hl|]. split; [reflexivity|].
  split; [exact (H1 Hs)|exact (H3 Hl eq_refl)].
Defined.

Lemma only_first_part_is_played_sample :
  let m := twoPartMessage "AAAA" "BBBBBBBB" in
  let m' := audioMessage "AAAA" in
  let silent := twoPartMessage "" "BBBBBBBB" in
  firstPart m = firstPart m'
  ∧ handleServerMessage sampleDuration m 3 playingWorld
    = handleServerMessage sampleDuration m' 3 playingWorld
  ∧ firstPartData silent = Some ""
  ∧ startedIds (trace (handleServerMessage sampleDuration silent 3 playingWorld))
    = startedIds (trace playingWorld)
  ∧ svc (handleServerMessage sampleDuration silent 3 playingWorld)
    = svc playingWorld.
Proof.
  intros m m' silent.
  destruct (only_first_part_is_played sampleDuration m m' 3 playingWorld)
    as (H1 & _).
  destruct (only_first_part_is_played sampleDuration silent silent 3
              playingWorld) as (_ & H2).
  split; [reflexivity|]. split; [exact (H1 eq_refl eq_refl eq_refl)|].
  split; [reflexivity|].
  exact (H2 eq_refl (or_intror eq_refl)).
Defined.

Lemma sampleConsole_reachable : Console.reachableApp sampleDuration sampleConsole.
Proof. by exists sampleInputs. Qed.

Lemma sampleConsole_instances :
  Console.instances sampleConsole = [sampleInstance].
Proof. by vm_compute. Qed.

Lemma console_volume_in_range_sample :
  Console.reachableApp sampleDuration sampleConsole
  ∧ amplitudeInRange (Console.volume sampleConsole)
  ∧ ArcReactor.withinRanges (Console.volume sampleConsole).
Proof.
  split; [exact sampleConsole_reachable|].
  exact (console_volume_in_range sampleDuration sampleConsole
           sampleConsole_reachable).
Defined.


Lemma sampleLateInputs_onCurrent :
  Forall (fun i => Console.onCurrent i = true) sampleLateInputs.
Proof. by repeat constructor. Qed.

Lemma sampleConsole_has_instance : Console.instances sampleConsole ≠ [].
Proof. by rewrite sampleConsole_instances. Qed.

Lemma silent_after_terminate_sample :
  Console.reachableApp sampleDuration sampleConsole
  ∧ Console.instances sampleConsole ≠ []
  ∧ Forall (fun i => Console.onCurrent i = true) sampleLateInputs
  ∧ Console.quiescent sampleDuration
      (Console.runApp sampleDuration sampleLateInputs
         (Console.handleDisconnect sampleConsole)).
Proof.
  split; [exact sampleConsole_reachable|].
  split; [exact sampleConsole_has_instance|].
  split; [exact sampleLateInputs_onCurrent|].
  exact (silent_after_terminate sampleDuration sampleConsole sampleLateInputs
           sampleConsole_reachable sampleConsole_has_instance
           sampleLateInputs_onCurrent).
Defined.



Lemma restartMessage_commands :
  commandOf <$> recognised (callsOf restartMessage) = [JsStr "restart"].
Proof. by vm_compute. Qed.

Lemma late_restart_shows_connected_sample :
  let st0 := Console.handleDisconnect sampleConsole in
  let st1 := Console.instanceEvent sampleDuration 0
               (ServerMessage restartMessage 4) None st0 in
  let st2 := Console.fireTimer (length (Console.timers st0)) st1 in
  Console.reachableApp sampleDuration sampleConsole
  ∧ Console.instances sampleConsole = [sampleInstance]
  ∧ commandOf <$> recognised (callsOf restartMessage) = [JsStr "restart"]
  ∧ Console.connectionState st0 = Console.DISCONNECTED
  ∧ Console.connectionState st1 = Console.CONNECTING
  ∧ Console.logs st1 = []
  ∧ Console.connectionState st2 = Console.CONNECTED
  ∧ ∃ w', Console.instances st2 = [w']
      ∧ inputAudioContext (svc w') = None
      ∧ outputAudioContext (svc w') = None.
Proof.
  intros st0 st1 st2.
  split; [exact sampleConsole_reachable|].
  split; [exact sampleConsole_instances|].
  split; [exact restartMessage_commands|].
  exact (late_restart_shows_connected sampleDuration sampleConsole
           sampleInstance [] restartMessage 4 sampleConsole_reachable
           sampleConsole_instances restartMessage_commands).
Defined.

Lemma sampleGreeted_reachable : Console.reachableApp sampleDuration sampleGreeted.
Proof. by exists (take 3 sampleInputs). Qed.

Lemma no_user_log_entry_sample :
  Console.reachableApp sampleDuration sampleGreeted
  ∧ length (Console.logs sampleGreeted) = 6%nat
  ∧ Forall (fun l => Console.type l = Console.system
                     ∨ Console.type l = Console.ai)
      (Console.logs sampleGreeted).
Proof.
  split; [exact sampleGreeted_reachable|].
  split; [by vm_compute|].
  exact (no_user_log_entry sampleDuration sampleGreeted sampleGreeted_reachable).
Defined.
